(** * Permission store: route and menu resolution

    A shallow embedding of [src/store/modules/permission.ts]: the pinia
    store [app-permission], its [resetState] action and the
    [buildRoutesAction] pass with its local helpers ([routeFilter],
    [routeRemoveIgnoreFilter], [patchHomeAffix], [wrapperRouterComponent],
    [parseRouteRoles], [handleBackMenuTree]).

    JavaScript values that the code inspects dynamically (the [meta] field
    of a record, before and after [JSON.parse]) are modelled by [jsval];
    exceptions by the [result] type; objects that are mutated while they are
    shared (the records of [menuList] in [handleBackMenuTree]) by an explicit
    store indexed by position. *)

From Stdlib Require Import List ZArith String Ascii Bool Lia Arith.
From Stdlib Require Import Permutation Sorted DecimalString.
Import ListNotations.
Local Open Scope string_scope.
Local Open Scope list_scope.
Local Open Scope Z_scope.

Set Implicit Arguments.
Set Warnings "-register-all".

(* ------------------------------------------------------------------ *)
(** ** JavaScript values and exceptions *)

Inductive jsval : Type :=
| JUndef
| JNull
| JBool (b : bool)
| JNum (z : Z)
| JStr (s : string)
| JArr (elems : list jsval)
| JObj (fields : list (string * jsval)).

Inductive js_error : Type :=
| TypeError      (* property access on undefined, call of a non-function *)
| SyntaxError    (* JSON.parse on malformed text *)
| FetchError.    (* a rejected request promise *)

Inductive result (A : Type) : Type :=
| Ok (a : A)
| Raise (e : js_error).
Arguments Ok {A} a.
Arguments Raise {A} e.

Definition bind {A B : Type} (m : result A) (k : A -> result B) : result B :=
  match m with
  | Ok a => k a
  | Raise e => Raise e
  end.

Notation "x <- m ;; k" := (bind m (fun x => k))
  (at level 61, m at next level, right associativity).

(** [try { body } catch { }]: the handler only logs. *)
Definition try_catch {A : Type} (body : result A) (fallback : A) : A :=
  match body with
  | Ok a => a
  | Raise _ => fallback
  end.

(** Truthiness, as tested by [if (v)], [!v], [v || d] and [v && e]. *)
Definition truthy (v : jsval) : bool :=
  match v with
  | JUndef | JNull => false
  | JBool b => b
  | JNum z => negb (z =? 0)
  | JStr s => negb (String.eqb s "")
  | JArr _ | JObj _ => true
  end.

Fixpoint lookup_field (k : string) (fs : list (string * jsval)) : jsval :=
  match fs with
  | [] => JUndef
  | (k', v) :: fs' => if String.eqb k k' then v else lookup_field k fs'
  end.

(** [v.k] for the keys the store reads ([roles], [ignoreRoute], [orderNo],
    [affix]): none of them is a built-in property of a string, an array, a
    number or a boolean, so the read yields [undefined] on those.  The code
    never reads a key of [undefined] or [null] directly: it guards with
    [meta || {}] or with [?.]. *)
Definition get (k : string) (v : jsval) : jsval :=
  match v with
  | JObj fs => lookup_field k fs
  | _ => JUndef
  end.

(** [v || {}] *)
Definition or_empty (v : jsval) : jsval := if truthy v then v else JObj [].

Definition string_of_Z (z : Z) : string := NilZero.string_of_int (Z.to_int z).
Definition string_of_nat (n : nat) : string := NilZero.string_of_uint (Nat.to_uint n).

Fixpoint join (sep : string) (l : list string) : string :=
  match l with
  | [] => ""
  | [s] => s
  | s :: l' => (s ++ sep ++ join sep l')%string
  end.

(** [String(v)], the coercion [JSON.parse] applies to its argument.
    Numbers are the integers. *)
Fixpoint ToString (v : jsval) : string :=
  match v with
  | JUndef => "undefined"
  | JNull => "null"
  | JBool true => "true"
  | JBool false => "false"
  | JNum z => string_of_Z z
  | JStr s => s
  | JArr l =>
      join "," (map (fun e => match e with
                              | JUndef | JNull => ""
                              | _ => ToString e
                              end) l)
  | JObj _ => "[object Object]"
  end.

(** Own enumerable properties, as [Object.assign] copies them. *)
Fixpoint index_from {A : Type} (n : nat) (l : list A) : list (string * A) :=
  match l with
  | [] => []
  | a :: l' => (string_of_nat n, a) :: index_from (S n) l'
  end.

Fixpoint chars (s : string) : list jsval :=
  match s with
  | EmptyString => []
  | String c s' => JStr (String c EmptyString) :: chars s'
  end.

Definition own_props (v : jsval) : list (string * jsval) :=
  match v with
  | JObj fs => fs
  | JArr l => index_from 0 l
  | JStr s => index_from 0 (chars s)
  | _ => []
  end.

Fixpoint set_field (k : string) (v : jsval) (fs : list (string * jsval))
  : list (string * jsval) :=
  match fs with
  | [] => [(k, v)]
  | (k', v') :: fs' =>
      if String.eqb k k' then (k', v) :: fs' else (k', v') :: set_field k v fs'
  end.

(** [Object.assign({}, m, { affix: true })] *)
Definition assign_affix (m : jsval) : jsval :=
  JObj (set_field "affix" (JBool true) (own_props m)).

(* ------------------------------------------------------------------ *)
(** ** Arrays *)

Fixpoint find_index {A : Type} (f : A -> bool) (l : list A) : option nat :=
  match l with
  | [] => None
  | a :: l' => if f a then Some 0%nat
               else option_map S (find_index f l')
  end.

Fixpoint update {A : Type} (l : list A) (i : nat) (a : A) : list A :=
  match l, i with
  | [], _ => []
  | _ :: l', O => a :: l'
  | b :: l', S i' => b :: update l' i' a
  end.

(** [arr.filter(f)] with a callback that may raise. *)
Fixpoint array_filter {A : Type} (f : A -> result bool) (l : list A)
  : result (list A) :=
  match l with
  | [] => Ok []
  | a :: l' =>
      b <- f a ;;
      r <- array_filter f l' ;;
      Ok (if b then a :: r else r)
  end.

(** [arr.some(f)]: stops at the first [true]; a raising callback aborts. *)
Fixpoint array_some {A : Type} (f : A -> result bool) (l : list A)
  : result bool :=
  match l with
  | [] => Ok false
  | a :: l' => b <- f a ;; if b then Ok true else array_some f l'
  end.

(* ------------------------------------------------------------------ *)
(** ** Data: backend records, routes, menus, store state *)

(** A flat record as the menu endpoint delivers it. *)
Record BackendMenuRecord : Type := mkRecord {
  rec_id : Z;
  rec_pid : Z;
  rec_name : string;
  rec_path : string;
  rec_redirect : option string;
  rec_meta : jsval
}.

(** A record of [menuList] as an object in the store: [handleBackMenuTree]
    assigns [meta] and [children] in place, and [children] holds references
    (positions in [menuList]) to other records. *)
Record menu_obj : Type := mkObj {
  m_id : Z;
  m_pid : Z;
  m_name : string;
  m_path : string;
  m_redirect : option string;
  m_meta : jsval;
  m_children : option (list nat)
}.

Definition alloc (r : BackendMenuRecord) : menu_obj :=
  mkObj (rec_id r) (rec_pid r) (rec_name r) (rec_path r) (rec_redirect r)
        (rec_meta r) None.

(** [AppRouteRecordRaw] *)
Inductive route : Type := mkRoute {
  r_id : Z;
  r_pid : Z;
  r_name : string;
  r_path : string;
  r_redirect : option string;
  r_meta : jsval;
  r_component : option string;
  r_children : option (list route)
}.

(** [Menu] *)
Inductive Menu : Type := mkMenu {
  menu_name : string;
  menu_path : string;
  menu_meta : jsval;
  menu_children : option (list Menu)
}.

Inductive PermissionModeEnum : Type := ROLE | ROUTE_MAPPING | BACK.

Record PermissionState : Type := mkState {
  permCodeList : list jsval;
  isDynamicAddedRoute : bool;
  lastBuildMenuTime : Z;
  backMenuList : list Menu;
  frontMenuList : list Menu
}.

(** [state: () => ({ ... })] *)
Definition initial_state : PermissionState :=
  mkState [] false 0 [] [].

(* ------------------------------------------------------------------ *)
(** ** Store actions *)

Definition setPermCodeList (codeList : list jsval) (s : PermissionState) :=
  mkState codeList (isDynamicAddedRoute s) (lastBuildMenuTime s)
          (backMenuList s) (frontMenuList s).

Definition setLastBuildMenuTime (now : Z) (s : PermissionState) :=
  mkState (permCodeList s) (isDynamicAddedRoute s) now
          (backMenuList s) (frontMenuList s).

(** [now] is the value of [new Date().getTime()]. *)
Definition setBackMenuList (now : Z) (l : list Menu) (s : PermissionState) :=
  let s1 := mkState (permCodeList s) (isDynamicAddedRoute s)
                    (lastBuildMenuTime s) l (frontMenuList s) in
  if (0 <? List.length l)%nat then setLastBuildMenuTime now s1 else s1.

Definition setFrontMenuList (l : list Menu) (s : PermissionState) :=
  mkState (permCodeList s) (isDynamicAddedRoute s) (lastBuildMenuTime s)
          (backMenuList s) l.

Definition setDynamicAddedRoute (added : bool) (s : PermissionState) :=
  mkState (permCodeList s) added (lastBuildMenuTime s)
          (backMenuList s) (frontMenuList s).

(** [resetState]: four assignments, in the order of the source. *)
Definition resetState (s : PermissionState) : PermissionState :=
  let s1 := mkState (permCodeList s) false (lastBuildMenuTime s)
                    (backMenuList s) (frontMenuList s) in
  let s2 := mkState [] (isDynamicAddedRoute s1) (lastBuildMenuTime s1)
                    (backMenuList s1) (frontMenuList s1) in
  let s3 := mkState (permCodeList s2) (isDynamicAddedRoute s2)
                    (lastBuildMenuTime s2) [] (frontMenuList s2) in
  mkState (permCodeList s3) (isDynamicAddedRoute s3) 0
          (backMenuList s3) (frontMenuList s3).

(* ------------------------------------------------------------------ *)
(** ** [buildRoutesAction]: the local helpers *)

Section Engine.

(** [JSON.parse] on a text: [None] is a [SyntaxError]. *)
Variable JSON_parse : string -> option jsval.
(** The table [ROUTE_MAP] of [/@/router/router-map]; a missing key reads
    [undefined]. *)
Variable ROUTE_MAP : string -> option string.

Definition JSON_parse_val (v : jsval) : result jsval :=
  match JSON_parse (ToString v) with
  | Some x => Ok x
  | None => Raise SyntaxError
  end.

Definition set_meta (m : menu_obj) (v : jsval) : menu_obj :=
  mkObj (m_id m) (m_pid m) (m_name m) (m_path m) (m_redirect m) v
        (m_children m).

Definition set_children (m : menu_obj) (c : option (list nat)) : menu_obj :=
  mkObj (m_id m) (m_pid m) (m_name m) (m_path m) (m_redirect m) (m_meta m) c.

(** [try { if (menu.meta) menu.meta = JSON.parse(menu.meta) } catch (e) { log }]:
    when the parse raises, the assignment has not happened. *)
Definition decode_meta (menu : menu_obj) : menu_obj :=
  try_catch
    (if truthy (m_meta menu)
     then v <- JSON_parse_val (m_meta menu) ;; Ok (set_meta menu v)
     else Ok menu)
    menu.

(** The object graph [handleBackMenuTree] works on: the records of
    [menuList] by position, and the array [menus] of references. *)
Definition store : Type := (list menu_obj * list nat)%type.

(** One call of the [forEach] callback, on the record at position [i]. *)
Definition handle_menu (st : store) (i : nat) : result store :=
  let '(heap, menus) := st in
  match nth_error heap i with
  | None => Raise TypeError
  | Some menu0 =>
      let menu := decode_meta menu0 in
      let heap1 := update heap i menu in
      if m_pid menu =? 0 then Ok (heap1, menus ++ [i])
      else
        match find_index (fun m => m_id m =? m_pid menu) heap1 with
        | None => Raise TypeError  (* [parentMenu] is undefined: [parentMenu.children] raises *)
        | Some p =>
            match nth_error heap1 p with
            | None => Raise TypeError
            | Some parentMenu =>
                let cs := match m_children parentMenu with
                          | Some cs => cs
                          | None => []
                          end in
                Ok (update heap1 p (set_children parentMenu (Some (cs ++ [i]))),
                    menus)
            end
        end
  end.

Fixpoint forEach {S : Type} (f : S -> nat -> result S) (idx : list nat) (s : S)
  : result S :=
  match idx with
  | [] => Ok s
  | i :: idx' => s' <- f s i ;; forEach f idx' s'
  end.

Definition handleBackMenuTree (menuList : list BackendMenuRecord) : result store :=
  forEach handle_menu (seq 0 (List.length menuList)) (map alloc menuList, []).

(** The children of an object, as a list of references. *)
Definition children_refs (heap : list menu_obj) (i : nat) : list nat :=
  match nth_error heap i with
  | Some m => match m_children m with Some cs => cs | None => [] end
  | None => []
  end.

Definition blank_obj : menu_obj := mkObj 0 0 "" "" None JUndef None.

(** The object at position [i] read as a route, following the references in
    [children]; [fuel] bounds the depth that is followed. *)
Fixpoint read_route (heap : list menu_obj) (fuel : nat) (i : nat) : route :=
  let m := nth i heap blank_obj in
  mkRoute (m_id m) (m_pid m) (m_name m) (m_path m) (m_redirect m) (m_meta m)
          None
          (match fuel with
           | O => None
           | S fuel' => option_map (map (read_route heap fuel')) (m_children m)
           end).

(** The array [menus] read as a forest.  An object reachable from [menus]
    lies at a depth below the number of records (see
    [read_forest_fuel_enough]). *)
Definition read_forest (st : store) : list route :=
  map (read_route (fst st) (List.length (fst st))) (snd st).

Fixpoint wrapperRouterComponent_route (r : route) : route :=
  match r with
  | mkRoute i p n pa rd me _ ch =>
      mkRoute i p n pa rd me (ROUTE_MAP n)
              (match ch with
               | Some (c :: cs) => Some (map wrapperRouterComponent_route (c :: cs))
               | other => other
               end)
  end.

Definition wrapperRouterComponent (routes : list route) : list route :=
  map wrapperRouterComponent_route routes.

(** [if (route?.meta?.roles) { try { route.meta.roles = JSON.parse(route.meta.roles) } catch (e) { log } }] *)
Definition decode_roles (me : jsval) : jsval :=
  let roles := get "roles" me in
  if truthy roles
  then try_catch
         (v <- JSON_parse_val roles ;;
          Ok (JObj (set_field "roles" v (own_props me))))
         me
  else me.

Fixpoint parseRouteRoles_route (r : route) : route :=
  match r with
  | mkRoute i p n pa rd me co ch =>
      mkRoute i p n pa rd (decode_roles me) co
              (match ch with
               | Some (c :: cs) => Some (map parseRouteRoles_route (c :: cs))
               | other => other
               end)
  end.

Definition parseRouteRoles (routes : list route) : list route :=
  map parseRouteRoles_route routes.

(** Lines 243-249.  [res] is the outcome of [getBackActiveMenuList()];
    [None] is the value [undefined] that [backRouteList] keeps when the
    [try] block raises before its first assignment. *)
Definition fetch_backRouteList (res : result (list BackendMenuRecord))
  : option (list route) :=
  try_catch
    (menuList <- res ;;
     st <- handleBackMenuTree menuList ;;
     Ok (Some (parseRouteRoles (wrapperRouterComponent (read_forest st)))))
    None.

(** *** The two predicates *)

(** [s.includes(t)] on strings: [t] occurs in [s]. *)
Definition string_includes (s t : string) : bool :=
  match String.index 0 t s with
  | Some _ => true
  | None => false
  end.

(** [roles.includes(role)]: on an array, membership; on a string, the
    substring test; on a value that has no method [includes], a
    [TypeError]. *)
Definition includes (roles : jsval) (role : string) : result bool :=
  match roles with
  | JArr l =>
      Ok (existsb (fun v => match v with
                            | JStr s => String.eqb s role
                            | _ => false
                            end) l)
  | JStr s => Ok (string_includes s role)
  | _ => Raise TypeError
  end.

Variable roleList : list string.

Definition routeFilter (route : route) : result bool :=
  let roles := get "roles" (or_empty (r_meta route)) in
  if negb (truthy roles) then Ok true
  else array_some (fun role => includes roles role) roleList.

Definition routeRemoveIgnoreFilter (route : route) : result bool :=
  let ignoreRoute := get "ignoreRoute" (or_empty (r_meta route)) in
  Ok (negb (truthy ignoreRoute)).

(** *** [filter] of [/@/utils/helper/treeHelper] *)

(** Modelled from the spec: the helper [filter] of
    [/@/utils/helper/treeHelper] is imported, its file is not part of the
    sources.  After section 4.2: it recurses into every node's children
    and replaces them with the filtered children, and does not remove the
    top-level nodes themselves. *)
Definition filter_children (rec : route -> result route)
  (func : route -> result bool) : list route -> result (list route) :=
  fix go (l : list route) : result (list route) :=
    match l with
    | [] => Ok []
    | c :: l' =>
        c' <- rec c ;;
        keep <- func c' ;;
        rest <- go l' ;;
        Ok (if keep then c' :: rest else rest)
    end.

(** Modelled from the spec: [filter] on one node (section 4.2): the node
    stays, its children are replaced with the filtered children. *)
Fixpoint filter_route (func : route -> result bool) (r : route) : result route :=
  match r with
  | mkRoute i p n pa rd me co ch =>
      match ch with
      | None => Ok r
      | Some cs =>
          cs' <- filter_children (filter_route func) func cs ;;
          Ok (mkRoute i p n pa rd me co (Some cs'))
      end
  end.

(** Modelled from the spec: [filter] on the top level (section 4.2): every
    top-level node stays, filtered below. *)
Fixpoint filter_forest (func : route -> result bool) (l : list route)
  : result (list route) :=
  match l with
  | [] => Ok []
  | r :: l' =>
      r' <- filter_route func r ;;
      rest <- filter_forest func l' ;;
      Ok (r' :: rest)
  end.

(** Modelled from the spec: the call [filter(tree, func)] as the store makes
    it.  The contract of section 4.2 is on forests; on [undefined] there is
    nothing to recurse into, and iterating [undefined] is a [TypeError]. *)
Definition filter (tree : option (list route)) (func : route -> result bool)
  : result (list route) :=
  match tree with
  | None => Raise TypeError
  | Some l => filter_forest func l
  end.

(** *** [patchHomeAffix] *)

Definition startsWith_slash (s : string) : bool :=
  match s with
  | String c _ => Ascii.eqb c "/"%char
  | EmptyString => false
  end.

(** [if (parentPath) parentPath = parentPath + '/'] *)
Definition with_slash (parentPath : string) : string :=
  if String.eqb parentPath "" then "" else (parentPath ++ "/")%string.

Definition resolve_path (prefix path : string) : string :=
  if startsWith_slash path then path else (prefix ++ path)%string.

(** [if (redirect)], [homePath || ...]: a string that is set and not empty. *)
Definition declared (rd : option string) : option string :=
  match rd with
  | Some s => if String.eqb s "" then None else Some s
  | None => None
  end.

(** [routes.forEach(callback)] with a callback that reads and assigns the
    variable [homePath] and may throw: the callback returns the route as it
    leaves it, the new [homePath], and whether it threw; a throw ends the
    loop. *)
Definition forEach_until (callback : string -> route -> route * string * bool)
  : list route -> string -> list route * string * bool :=
  fix go (l : list route) (h : string) : list route * string * bool :=
    match l with
    | [] => ([], h, false)
    | x :: l' =>
        let '(x', h1, t) := callback h x in
        if t then (x' :: l', h1, true)
        else let '(l'', h2, t2) := go l' h1 in
             (x' :: l'', h2, t2)
    end.

(** The callback of [patcher] on one route.  [prefix] is [parentPath] after
    the slash was added, [home] the current value of [homePath]. *)
Fixpoint patcher_route (prefix home : string) (r : route) {struct r}
  : route * string * bool :=
  match r with
  | mkRoute i p n path rd me co ch =>
      let currentPath := resolve_path prefix path in
      let hit := String.eqb currentPath home in
      match hit, declared rd with
      | true, None => (mkRoute i p n path rd (assign_affix me) co ch, home, true)
      | _, _ =>
          let home1 := match hit, declared rd with
                       | true, Some target => target
                       | _, _ => home
                       end in
          match ch with
          | Some (c :: cs) =>
              let '(ch', home2, thrown) :=
                forEach_until (patcher_route (with_slash currentPath))
                              (c :: cs) home1 in
              (mkRoute i p n path rd me co (Some ch'), home2, thrown)
          | _ => (r, home1, false)
          end
      end
  end.

(** [patcher(routes, parentPath)] *)
Definition patcher (prefix : string) (routes : list route) (home : string)
  : list route * string * bool :=
  forEach_until (patcher_route prefix) routes home.

(** [userStore.getUserInfo.homePath || PageEnum.BASE_HOME] *)
Variable userHomePath : option string.
Variable BASE_HOME : string.

Definition initial_homePath : string :=
  match declared userHomePath with
  | Some h => h
  | None => BASE_HOME
  end.

(** The routes are patched in place; the result is the array after the call. *)
Definition patchHomeAffix (routes : list route) : list route :=
  match routes with
  | [] => routes
  | _ => fst (fst (patcher (with_slash "") routes initial_homePath))
  end.

(** *** [menuList.sort(...)] *)

(** The number the comparator reads, [meta?.orderNo || 0] under the
    subtraction: a number is itself, [true] is 1, every falsy value
    (absent, [null], [false], 0, the empty string) is 0.  On the values
    [orderNo_numeric] rejects (a non-empty string, an array, an object) the
    subtraction coerces through text and may give [NaN]; they are outside
    this function. *)
Definition orderNo_of (me : jsval) : Z :=
  match get "orderNo" me with
  | JNum z => z
  | JBool true => 1
  | _ => 0
  end.


(** [a.meta?.orderNo || 0] *)
Definition orderNo (m : Menu) : Z := orderNo_of (menu_meta m).

(** [Array.prototype.sort] is stable; with the comparator
    [orderNo a - orderNo b] its result is the stable ascending arrangement,
    which insertion from the right computes. *)
Fixpoint sort_insert (a : Menu) (l : list Menu) : list Menu :=
  match l with
  | [] => [a]
  | b :: l' => if orderNo a <=? orderNo b then a :: b :: l'
               else b :: sort_insert a l'
  end.

Fixpoint sort_by_orderNo (l : list Menu) : list Menu :=
  match l with
  | [] => []
  | a :: l' => sort_insert a (sort_by_orderNo l')
  end.

(** *** [transformRouteToMenu] of [/@/router/helper/menuHelper] *)

(** Modelled from the spec: [transformRouteToMenu] is imported, its file is
    not part of the sources.  After section 4.3: each route maps to one
    menu, the hierarchy kept, name, path and the display and order metadata
    carried over; with [fillPath], a child whose path does not start with
    the separator gets the parent's resolved path joined with its own.
    After section 3 and property 4 of section 8: in the output the menus
    of one parent are in ascending order of [orderNo] (a missing one
    counts as 0), equal ones in the order of their routes, at every
    nesting level. *)
Fixpoint toMenu (fillPath : bool) (parent : option string) (r : route) : Menu :=
  match r with
  | mkRoute _ _ n path _ me _ ch =>
      let resolved :=
        match fillPath, parent with
        | true, Some pp =>
            if startsWith_slash path then path else (pp ++ "/" ++ path)%string
        | _, _ => path
        end in
      mkMenu n resolved me
             (option_map
                (fun cs => sort_by_orderNo (map (toMenu fillPath (Some resolved)) cs))
                ch)
  end.

(** Modelled from the spec: [transformRouteToMenu(routes, fillPath)]
    (sections 4.3, 3 and 8), the conversion of the top-level routes, in
    ascending order of [orderNo] as every other level. *)
Definition transformRouteToMenu (routes : list route) (fillPath : bool)
  : list Menu :=
  sort_by_orderNo (map (toMenu fillPath None) routes).

(** *** [buildRoutesAction] *)

(** Imported helpers and constants whose files are not part of the sources. *)
Variable flatMultiLevelRoutes : list route -> list route.
Variable transformObjToRoute : list route -> list route.
Variable ERROR_LOG_ROUTE : route.
Variable PAGE_NOT_FOUND_ROUTE : route.

(** The outcomes of the three requests and the clock. *)
Variable getBackActiveMenuList : result (list BackendMenuRecord).
Variable getPermCode : result (list jsval).
Variable getMenuList : result (list route).
Variable now : Z.

(** The [switch (permissionMode)]: the store after the branch and the value
    of [routes], or the exception that left the branch. *)
Definition mode_branch (permissionMode : PermissionModeEnum)
  (backRouteList : option (list route)) (s : PermissionState)
  : PermissionState * result (list route) :=
  match permissionMode with
  | ROLE =>
      (s, routes <- filter backRouteList routeFilter ;;
          routes <- array_filter routeFilter routes ;;
          Ok (flatMultiLevelRoutes routes))
  | ROUTE_MAPPING =>
      match (routes <- filter backRouteList routeFilter ;;
             array_filter routeFilter routes) with
      | Raise e => (s, Raise e)
      | Ok routes =>
          let menuList := transformRouteToMenu routes true in
          match (routes <- filter (Some routes) routeRemoveIgnoreFilter ;;
                 array_filter routeRemoveIgnoreFilter routes) with
          | Raise e => (s, Raise e)
          | Ok routes =>
              let menuList := sort_by_orderNo menuList in
              (setFrontMenuList menuList s, Ok (flatMultiLevelRoutes routes))
          end
      end
  | BACK =>
      let '(s1, routeList) :=
        match getPermCode with
        | Raise _ => (s, [])
        | Ok codeList =>
            (setPermCodeList codeList s, try_catch getMenuList [])
        end in
      let routeList := transformObjToRoute routeList in
      let backMenuList := transformRouteToMenu routeList false in
      let s2 := setBackMenuList now backMenuList s1 in
      (s2, routeList <- filter (Some routeList) routeRemoveIgnoreFilter ;;
           routeList <- array_filter routeRemoveIgnoreFilter routeList ;;
           Ok (PAGE_NOT_FOUND_ROUTE :: flatMultiLevelRoutes routeList))
  end.

(** Lines 251-331, from the value of [backRouteList] on. *)
Definition buildRoutes_from (permissionMode : PermissionModeEnum)
  (backRouteList : option (list route)) (s : PermissionState)
  : PermissionState * result (list route) :=
  let '(s', r) := mode_branch permissionMode backRouteList s in
  (s', routes <- r ;; Ok (patchHomeAffix (routes ++ [ERROR_LOG_ROUTE]))).

Definition buildRoutesAction (permissionMode : PermissionModeEnum)
  (s : PermissionState) : PermissionState * result (list route) :=
  buildRoutes_from permissionMode (fetch_backRouteList getBackActiveMenuList) s.

End Engine.

(* ------------------------------------------------------------------ *)
(** ** The tree builder in closed form *)

Section Closed_form.

Variable JSON_parse : string -> option jsval.
Variable menuList : list BackendMenuRecord.

Definition pid_at (j : nat) : Z :=
  match nth_error menuList j with
  | Some r => rec_pid r
  | None => 0
  end.

(** [menuList.find((m) => m.id === pid)], as a position. *)
Definition find_parent (pid : Z) : option nat :=
  find_index (fun r => rec_id r =? pid) menuList.

(** The record at [j] has a parent id that no record carries. *)
Definition is_orphan (j : nat) : bool :=
  negb (pid_at j =? 0) &&
  match find_parent (pid_at j) with
  | Some _ => false
  | None => true
  end.

Definition is_root (j : nat) : bool := pid_at j =? 0.

(** The record at [j] is pushed onto the children of the record at [i]. *)
Definition is_child_of (i j : nat) : bool :=
  negb (pid_at j =? 0) &&
  match find_parent (pid_at j) with
  | Some p => Nat.eqb p i
  | None => false
  end.

Definition roots_upto (k : nat) : list nat := List.filter is_root (seq 0 k).
Definition kids_upto (k i : nat) : list nat :=
  List.filter (is_child_of i) (seq 0 k).

(** A [children] field is created on the first push. *)
Definition to_field (l : list nat) : option (list nat) :=
  match l with
  | [] => None
  | _ => Some l
  end.

(** The value [decode_meta] leaves in [meta]. *)
Definition decode_value (v : jsval) : jsval :=
  if truthy v
  then match JSON_parse (ToString v) with
       | Some x => x
       | None => v
       end
  else v.

(** The object at position [i] once the metas of the first [km] records are
    decoded and the first [kc] records are placed. *)
Definition obj_at (km kc : nat) (i : nat) (r : BackendMenuRecord) : menu_obj :=
  mkObj (rec_id r) (rec_pid r) (rec_name r) (rec_path r) (rec_redirect r)
        (if (i <? km)%nat then decode_value (rec_meta r) else rec_meta r)
        (to_field (kids_upto kc i)).

Fixpoint imap {A B : Type} (f : nat -> A -> B) (start : nat) (l : list A)
  : list B :=
  match l with
  | [] => []
  | a :: l' => f start a :: imap f (S start) l'
  end.

Definition heap_at (km kc : nat) : list menu_obj :=
  imap (obj_at km kc) 0 menuList.

(** Following parent ids from the record at [j] ends at a root within
    [fuel] steps. *)
Fixpoint climbs (fuel : nat) (j : nat) : bool :=
  match fuel with
  | O => false
  | S fuel' =>
      match nth_error menuList j with
      | None => false
      | Some r =>
          if rec_pid r =? 0 then true
          else match find_parent (rec_pid r) with
               | Some p => climbs fuel' p
               | None => false
               end
      end
  end.

End Closed_form.

(** The record at [j] lies [d] parent steps below a root. *)
Inductive depth_of (menuList : list BackendMenuRecord) : nat -> nat -> Prop :=
| depth_root : forall j,
    (j < List.length menuList)%nat -> pid_at menuList j = 0 ->
    depth_of menuList 0 j
| depth_child : forall d j p,
    pid_at menuList j <> 0 ->
    find_parent menuList (pid_at menuList j) = Some p ->
    depth_of menuList d p ->
    depth_of menuList (S d) j.

(** The record at [i] is the [k]-th ancestor of the record at [x]. *)
Inductive ancestor_at (menuList : list BackendMenuRecord)
  : nat -> nat -> nat -> Prop :=
| anc_self : forall x, ancestor_at menuList 0 x x
| anc_step : forall k i x p,
    pid_at menuList x <> 0 ->
    find_parent menuList (pid_at menuList x) = Some p ->
    ancestor_at menuList k i p ->
    ancestor_at menuList (S k) i x.

(** The positions [read_route] visits, in depth-first order. *)
Fixpoint visit (heap : list menu_obj) (fuel : nat) (i : nat) : list nat :=
  i :: match fuel with
       | O => []
       | S fuel' => flat_map (visit heap fuel') (children_refs heap i)
       end.

(** The ids of a forest in depth-first order. *)
Fixpoint ids_route (r : route) : list Z :=
  match r with
  | mkRoute i _ _ _ _ _ _ ch =>
      i :: match ch with
           | Some cs => flat_map ids_route cs
           | None => []
           end
  end.

Definition ids (routes : list route) : list Z := flat_map ids_route routes.

(** Reachability in the object graph, from the array [menus]. *)
Inductive reachable (st : store) : nat -> Prop :=
| reach_root : forall r, In r (snd st) -> reachable st r
| reach_child : forall i j,
    reachable st i -> In j (children_refs (fst st) i) -> reachable st j.

(** All references held by the graph: [menus], then every [children]. *)
Definition all_refs (st : store) : list nat :=
  snd st ++ flat_map (children_refs (fst st)) (seq 0 (List.length (fst st))).

(** Consistent parent references: each nonzero [pid] is the
    [id] of some record. *)
Definition consistent_parents (menuList : list BackendMenuRecord) : bool :=
  forallb (fun r => (rec_pid r =? 0) ||
                    existsb (fun r' => rec_id r' =? rec_pid r) menuList)
          menuList.

(* ------------------------------------------------------------------ *)
(** ** Sample data for the closed examples *)

Definition dq : string := String (ascii_of_nat 34) EmptyString.

(** The text [{"roles":["admin"]}]. *)
Definition text_roles_admin : string :=
  ("{" ++ dq ++ "roles" ++ dq ++ ":[" ++ dq ++ "admin" ++ dq ++ "]}")%string.

(** The text [{"roles":5}]. *)
Definition text_roles_5 : string :=
  ("{" ++ dq ++ "roles" ++ dq ++ ":5}")%string.

(** The texts [{"orderNo":1}], [{"orderNo":2}] and [{"ignoreRoute":true}]. *)
Definition text_order_1 : string :=
  ("{" ++ dq ++ "orderNo" ++ dq ++ ":1}")%string.
Definition text_order_2 : string :=
  ("{" ++ dq ++ "orderNo" ++ dq ++ ":2}")%string.
Definition text_ignored : string :=
  ("{" ++ dq ++ "ignoreRoute" ++ dq ++ ":true}")%string.

(** [JSON.parse] on the texts the examples use: the objects above, the
    number [5], and texts that are not JSON ([admin], [not json],
    [[object Object]]), on which it raises. *)
Definition JSON_parse_sample (s : string) : option jsval :=
  if String.eqb s text_roles_admin
  then Some (JObj [("roles", JArr [JStr "admin"])])
  else if String.eqb s text_roles_5
  then Some (JObj [("roles", JNum 5)])
  else if String.eqb s text_order_1
  then Some (JObj [("orderNo", JNum 1)])
  else if String.eqb s text_order_2
  then Some (JObj [("orderNo", JNum 2)])
  else if String.eqb s text_ignored
  then Some (JObj [("ignoreRoute", JBool true)])
  else if String.eqb s "5" then Some (JNum 5)
  else None.

Definition ROUTE_MAP_sample (name : string) : option string :=
  if String.eqb name "Dashboard" then Some "dashboard/index.vue" else None.

(** One record whose parent is itself. *)
Definition self_parent : list BackendMenuRecord :=
  [mkRecord 1 1 "Loop" "/loop" None JUndef].

(** A root and a record whose parent id [7] no record carries. *)
Definition with_orphan : list BackendMenuRecord :=
  [mkRecord 1 0 "Dashboard" "/dash" None JUndef;
   mkRecord 2 7 "Lost" "lost" None JUndef].

(** A root, two children under it and a grandchild, out of order. *)
Definition small_tree : list BackendMenuRecord :=
  [mkRecord 3 1 "B" "b" None JUndef;
   mkRecord 1 0 "Dashboard" "/dash" None JUndef;
   mkRecord 4 3 "C" "c" None JUndef;
   mkRecord 2 1 "A" "a" None JUndef].

(** A root with a child for [admin] only (the example of the spec). *)
Definition admin_records : list BackendMenuRecord :=
  [mkRecord 1 0 "Dashboard" "/dash" None JUndef;
   mkRecord 2 1 "Admin" "child" None (JStr text_roles_admin)].

(** A root whose meta is not JSON. *)
Definition bad_meta : list BackendMenuRecord :=
  [mkRecord 1 0 "Dashboard" "/dash" None (JStr "not json")].

(* ------------------------------------------------------------------ *)
(** ** The home patch, described as a walk *)

(** The nodes of a forest in depth-first order, each with its resolved
    path. *)
Fixpoint walk_route (prefix : string) (r : route) : list (string * route) :=
  match r with
  | mkRoute _ _ _ path _ _ _ ch =>
      let currentPath := resolve_path prefix path in
      (currentPath, r) ::
      match ch with
      | Some cs => flat_map (walk_route (with_slash currentPath)) cs
      | None => []
      end
  end.

Definition walk (prefix : string) (routes : list route) : list (string * route) :=
  flat_map (walk_route prefix) routes.

(** The metas of a forest in depth-first order. *)
Fixpoint metas_route (r : route) : list jsval :=
  match r with
  | mkRoute _ _ _ _ _ me _ ch =>
      me :: match ch with
            | Some cs => flat_map metas_route cs
            | None => []
            end
  end.

Definition metas (routes : list route) : list jsval := flat_map metas_route routes.

(** A forest with every meta erased. *)
Fixpoint shape_route (r : route) : route :=
  match r with
  | mkRoute i p n pa rd _ co ch =>
      mkRoute i p n pa rd JUndef co (option_map (map shape_route) ch)
  end.

Definition shape (routes : list route) : list route := map shape_route routes.

(** The description of the home patch, over the walk: at a node whose
    resolved path is the target, a declared redirect becomes the new
    target and the walk goes on; without a redirect the node's meta gets
    [affix] and the walk ends, every later meta left as it is.  The result
    is the metas after the walk, the last target, and whether the walk
    ended on a match. *)
Fixpoint first_match_walk (l : list (string * route)) (home : string)
  : list jsval * string * bool :=
  match l with
  | [] => ([], home, false)
  | (currentPath, r) :: l' =>
      if String.eqb currentPath home
      then match declared (r_redirect r) with
           | Some target =>
               let '(ms, h, t) := first_match_walk l' target in
               (r_meta r :: ms, h, t)
           | None =>
               (assign_affix (r_meta r) :: map (fun x => r_meta (snd x)) l',
                home, true)
           end
      else let '(ms, h, t) := first_match_walk l' home in
           (r_meta r :: ms, h, t)
  end.

(** The example of the redirecting home: [/dash] redirects to
    [/dash/child]. *)
Definition dash_child : route :=
  mkRoute 2 1 "DashChild" "child" None JUndef None None.
Definition dash_root : route :=
  mkRoute 1 0 "Dashboard" "/dash" (Some "/dash/child") JUndef None
          (Some [dash_child]).

(* ------------------------------------------------------------------ *)
(** ** The filters, on well-typed metas *)

(** [meta.roles] is absent or an array, as the route type declares it. *)
Definition roles_typed (me : jsval) : bool :=
  match get "roles" (or_empty me) with
  | JUndef | JArr _ => true
  | _ => false
  end.

Definition has_role (l : list jsval) (role : string) : bool :=
  existsb (fun v => match v with
                    | JStr s => String.eqb s role
                    | _ => false
                    end) l.

(** The verdict of [routeFilter] on a well-typed meta. *)
Definition role_passes (roleList : list string) (me : jsval) : bool :=
  match get "roles" (or_empty me) with
  | JArr l => existsb (has_role l) roleList
  | _ => true
  end.

(** The verdict of [routeRemoveIgnoreFilter]. *)
Definition ignore_passes (me : jsval) : bool :=
  negb (truthy (get "ignoreRoute" (or_empty me))).

(** [filter_route] with a predicate that does not raise. *)
Fixpoint prune_route (q : jsval -> bool) (r : route) : route :=
  match r with
  | mkRoute i p n pa rd me co ch =>
      mkRoute i p n pa rd me co
              (option_map
                 (fun cs => List.filter (fun c => q (r_meta c))
                                        (map (prune_route q) cs))
                 ch)
  end.

(** The descendant pass followed by the top-level pass. *)
Definition prune (q : jsval -> bool) (l : list route) : list route :=
  List.filter (fun r => q (r_meta r)) (map (prune_route q) l).

(** The nodes of a forest, each as the chain of [(name, meta)] from its
    root down to it. *)
Fixpoint chains_route (r : route) : list (list (string * jsval)) :=
  match r with
  | mkRoute _ _ n _ _ me _ ch =>
      [(n, me)] ::
      map (cons (n, me))
          (match ch with
           | Some cs => flat_map chains_route cs
           | None => []
           end)
  end.

Definition chains (l : list route) : list (list (string * jsval)) :=
  flat_map chains_route l.

Fixpoint menu_metas_node (m : Menu) : list jsval :=
  match m with
  | mkMenu _ _ me ch =>
      me :: match ch with
            | Some cs => flat_map menu_metas_node cs
            | None => []
            end
  end.

(** The metas of a menu forest in depth-first order. *)
Definition menu_metas (l : list Menu) : list jsval := flat_map menu_metas_node l.

(** More sample data. *)
Definition meta_ignored : jsval := JObj [("ignoreRoute", JBool true)].
Definition meta_roles (l : list string) : jsval :=
  JObj [("roles", JArr (map JStr l))].

(** A root with a child that is for the menu only. *)
Definition with_ignored_child : list route :=
  [mkRoute 1 0 "Dashboard" "/dash" None JUndef None
     (Some [mkRoute 2 1 "Hidden" "hidden" None meta_ignored None None])].

(** A root open to all over a child for [admin] only. *)
Definition admin_child : list route :=
  [mkRoute 1 0 "Dashboard" "/dash" None JUndef None
     (Some [mkRoute 2 1 "Admin" "child" None (meta_roles ["admin"]) None None])].

(** On a forest of depth at most two, flattening changes nothing (section
    4.4 of the spec); the closed examples use such forests only. *)
Definition flatMultiLevelRoutes_sample (routes : list route) : list route := routes.
Definition transformObjToRoute_sample (routes : list route) : list route := routes.

Definition ERROR_LOG_ROUTE_sample : route :=
  mkRoute 0 0 "ErrorLog" "/error-log" (Some "/error-log/list") JUndef None
          (Some [mkRoute 0 0 "ErrorLogList" "list" None JUndef None None]).

Definition PAGE_NOT_FOUND_ROUTE_sample : route :=
  mkRoute 0 0 "PageNotFound" "/:path(.*)*" None JUndef None None.

(** The pass with the sample helpers and constants; the two requests of the
    BACK mode answer with empty lists. *)
Definition buildRoutesAction_sample (roleList : list string)
  (getBackActiveMenuList : result (list BackendMenuRecord))
  (permissionMode : PermissionModeEnum) (s : PermissionState)
  : PermissionState * result (list route) :=
  buildRoutesAction JSON_parse_sample ROUTE_MAP_sample roleList None
    "/dashboard/analysis" flatMultiLevelRoutes_sample
    transformObjToRoute_sample ERROR_LOG_ROUTE_sample
    PAGE_NOT_FOUND_ROUTE_sample getBackActiveMenuList (Ok []) (Ok [])
    1700000000000 permissionMode s.

(** The ROLE mode as the description has it: the role filter (descendant
    pass, then top-level pass) on the static route declarations, flattened;
    then the error-log route and the home patch, as for every mode. *)
Definition role_mode_on_static (roleList : list string)
  (staticRoutes : list route) : list route :=
  patchHomeAffix None "/dashboard/analysis"
    (flatMultiLevelRoutes_sample (prune (role_passes roleList) staticRoutes)
     ++ [ERROR_LOG_ROUTE_sample]).

(** A root whose meta decodes to [{ roles: 5 }]. *)
Definition roles_not_a_list : list BackendMenuRecord :=
  [mkRecord 1 0 "Dashboard" "/dash" None (JStr text_roles_5)].

(** A store in which every field differs from its initial value. *)
Definition used_state : PermissionState :=
  mkState [JStr "1000"] true 1700000000000
          [mkMenu "Back" "/back" JUndef None]
          [mkMenu "Front" "/front" JUndef None].

(* ------------------------------------------------------------------ *)
(** ** Vocabulary of the statements *)

(** What one run of [patcher] does to the metas, and that it touches
    nothing else. *)
Definition patcher_agrees (prefix home : string) (l l' : list route)
  (h' : string) (t : bool) : Prop :=
  (metas l', h', t) = first_match_walk (walk prefix l) home /\
  shape l' = shape l.

(** Every node of a chain passes. *)
Definition chain_passes (q : jsval -> bool) (c : list (string * jsval)) : bool :=
  forallb (fun lbl => q (snd lbl)) c.



(** Two first records with the same id, and a record with their id as
    parent. *)
Definition twin_ids : list BackendMenuRecord :=
  [mkRecord 1 0 "One" "/one" None JUndef;
   mkRecord 1 0 "Twin" "/twin" None JUndef;
   mkRecord 2 1 "Child" "child" None JUndef].

(** A record with the id [0]. *)
Definition zero_id : list BackendMenuRecord :=
  [mkRecord 0 0 "Zero" "/zero" None JUndef].

(* ------------------------------------------------------------------ *)
(** ** More vocabulary: the remaining actions and what the passes keep *)

(** [changePermissionCode]: the store after the action, or the rejection of
    [getPermCode()], which leaves the store as it was. *)
Definition changePermissionCode (getPermCode : result (list jsval))
  (s : PermissionState) : result PermissionState :=
  codeList <- getPermCode ;; Ok (setPermCodeList codeList s).

(** A forest with every component erased. *)
Fixpoint uncomponent_route (r : route) : route :=
  match r with
  | mkRoute i p n pa rd me _ ch =>
      mkRoute i p n pa rd me None (option_map (map uncomponent_route) ch)
  end.

Definition uncomponent (routes : list route) : list route :=
  map uncomponent_route routes.

(** The nodes of a forest in depth-first order, as name and component. *)
Fixpoint components_route (r : route) : list (string * option string) :=
  match r with
  | mkRoute _ _ n _ _ _ co ch =>
      (n, co) :: match ch with
                 | Some cs => flat_map components_route cs
                 | None => []
                 end
  end.

Definition components (routes : list route) : list (string * option string) :=
  flat_map components_route routes.

(** [meta.roles] is a value on which [includes] can be called. *)
Definition roles_callable (roles : jsval) : bool :=
  match roles with
  | JArr _ | JStr _ => true
  | _ => false
  end.

(** What the walk of [patchHomeAffix] reads of a node: its resolved path
    and its redirect. *)
Definition walk_keys (l : list (string * route)) : list (string * option string) :=
  map (fun x => (fst x, declared (r_redirect (snd x)))) l.

(** A record whose meta is the text of an object with roles. *)
Definition decoded_meta_records : list BackendMenuRecord :=
  [mkRecord 1 0 "Dashboard" "/dash" None (JStr text_roles_admin);
   mkRecord 2 1 "Empty" "empty" None (JStr "")].

(** Roles kept as an undecoded text. *)
Definition text_roles_route : route :=
  mkRoute 1 0 "Reports" "/reports" None
          (JObj [("roles", JStr "administrator,auditor")]) None None.

(** A forest in which the redirect target sits before the redirecting
    node. *)
Definition backward_redirect : list route :=
  [mkRoute 1 0 "Target" "/target" None JUndef None None;
   mkRoute 2 0 "Home" "/home" (Some "/target") JUndef None None].

(** A home route below a layout route. *)
Definition nested_home : list route :=
  [mkRoute 1 0 "Layout" "/dashboard" None JUndef None
     (Some [mkRoute 2 1 "Analysis" "analysis" None
                    (JObj [("title", JStr "Analysis")]) None None;
            mkRoute 3 1 "Workbench" "workbench" None JUndef None None])].

(** The walk of [patchHomeAffix] on what it reads: the keys of the nodes in
    walk order and their metas. *)
Fixpoint mark_first (keys : list (string * option string)) (ms : list jsval)
  (home : string) : list jsval :=
  match keys, ms with
  | (currentPath, rd) :: keys', m :: ms' =>
      if String.eqb currentPath home
      then match rd with
           | Some target => m :: mark_first keys' ms' target
           | None => assign_affix m :: ms'
           end
      else m :: mark_first keys' ms' home
  | _, _ => ms
  end.

(* ------------------------------------------------------------------ *)
(** ** Vocabulary for the menu order and the untyped roles *)






(** The text [{"roles":["0"]}]. *)
Definition text_roles_zero : string :=
  ("{" ++ dq ++ "roles" ++ dq ++ ":[" ++ dq ++ "0" ++ dq ++ "]}")%string.

(** [JSON.parse] on two more texts: the object above and the number [0]. *)
Definition JSON_parse_sample_zero (s : string) : option jsval :=
  if String.eqb s text_roles_zero
  then Some (JObj [("roles", JArr [JStr "0"])])
  else if String.eqb s "0" then Some (JNum 0)
  else JSON_parse_sample s.

(** A root that declares the roles [["0"]]. *)
Definition zero_roles_records : list BackendMenuRecord :=
  [mkRecord 1 0 "Zero" "/zero" None (JStr text_roles_zero)].

(* ================================================================== *)
(** * Properties *)

(** ** Lists and arrays *)

Lemma nth_error_update (A : Type) (l : list A) (i : nat) (a : A) (j : nat) :
  nth_error (update l i a) j =
  if Nat.eqb j i
  then (if (i <? List.length l)%nat then Some a else None)
  else nth_error l j.
Proof.
  revert i j; induction l as [|b l IH]; intros [|i] [|j]; simpl; auto;
    now destruct (Nat.eqb j i).
Qed.

Lemma length_update (A : Type) (l : list A) (i : nat) (a : A) :
  List.length (update l i a) = List.length l.
Proof.
  revert i; induction l as [|b l IH]; intros [|i]; simpl; auto.
Qed.

Lemma nth_error_imap (A B : Type) (f : nat -> A -> B) (l : list A) (s i : nat) :
  nth_error (imap f s l) i = option_map (f (s + i)%nat) (nth_error l i).
Proof.
  revert s i; induction l as [|a l IH]; intros s [|i]; simpl; auto.
  - now rewrite Nat.add_0_r.
  - rewrite IH. now rewrite Nat.add_succ_r.
Qed.

Lemma length_imap (A B : Type) (f : nat -> A -> B) (l : list A) (s : nat) :
  List.length (imap f s l) = List.length l.
Proof.
  revert s; induction l as [|a l IH]; intros s; simpl; auto.
Qed.

Lemma find_index_imap (A B : Type) (f : nat -> A -> B) (g : B -> bool)
      (h : A -> bool) (l : list A) (s : nat) :
  (forall i a, g (f i a) = h a) ->
  find_index g (imap f s l) = find_index h l.
Proof.
  intros E; revert s; induction l as [|a l IH]; intros s; simpl; auto.
  rewrite E, IH. reflexivity.
Qed.

Lemma find_index_Some (A : Type) (f : A -> bool) (l : list A) (p : nat) :
  find_index f l = Some p ->
  exists a, nth_error l p = Some a /\ f a = true /\
            forall j b, (j < p)%nat -> nth_error l j = Some b -> f b = false.
Proof.
  revert p; induction l as [|a l IH]; intros p; simpl; [discriminate|].
  destruct (f a) eqn:Fa.
  - intros [= <-]. exists a. repeat split; auto. intros j b Hj; lia.
  - destruct (find_index f l) as [q|] eqn:Fq; simpl; [|discriminate].
    intros [= <-]. destruct (IH q eq_refl) as (x & Hx & Fx & Hlt).
    exists x. repeat split; auto.
    intros [|j] b Hj; simpl.
    + now intros [= <-].
    + apply Hlt. lia.
Qed.

Lemma find_index_None (A : Type) (f : A -> bool) (l : list A) :
  find_index f l = None -> forall a, In a l -> f a = false.
Proof.
  induction l as [|b l IH]; simpl; [tauto|].
  destruct (f b) eqn:Fb; [discriminate|].
  destruct (find_index f l); simpl; [discriminate|].
  intros _ a [<-|Ha]; auto.
Qed.

Lemma filter_seq_S (f : nat -> bool) (k : nat) :
  List.filter f (seq 0 (S k)) =
  List.filter f (seq 0 k) ++ (if f k then [k] else []).
Proof.
  rewrite seq_S, filter_app. simpl. destruct (f k); reflexivity.
Qed.

(** ** The tree builder: what the loop computes *)

Section Builder_facts.

Variable JSON_parse : string -> option jsval.
Variable menuList : list BackendMenuRecord.

Lemma decode_meta_value (m : menu_obj) :
  decode_meta JSON_parse m = set_meta m (decode_value JSON_parse (m_meta m)).
Proof.
  unfold decode_meta, decode_value, JSON_parse_val.
  destruct m as [i p n pa rd me ch]; simpl.
  destruct (truthy me); simpl; auto.
  destruct (JSON_parse (ToString me)); simpl; auto.
Qed.

Lemma nth_error_heap_at (km kc i : nat) :
  nth_error (heap_at JSON_parse menuList km kc) i =
  option_map (obj_at JSON_parse menuList km kc i) (nth_error menuList i).
Proof.
  unfold heap_at. now rewrite nth_error_imap.
Qed.

Lemma length_heap_at (km kc : nat) :
  List.length (heap_at JSON_parse menuList km kc) = List.length menuList.
Proof.
  apply length_imap.
Qed.

Lemma find_parent_heap_at (km kc : nat) (pid : Z) :
  find_index (fun m => m_id m =? pid) (heap_at JSON_parse menuList km kc) =
  find_parent menuList pid.
Proof.
  unfold heap_at, find_parent. now apply find_index_imap.
Qed.

Lemma pid_at_nth (k : nat) (r : BackendMenuRecord) :
  nth_error menuList k = Some r -> pid_at menuList k = rec_pid r.
Proof.
  unfold pid_at; now intros ->.
Qed.

Lemma kids_upto_S (k j : nat) :
  kids_upto menuList (S k) j =
  kids_upto menuList k j ++ (if is_child_of menuList j k then [k] else []).
Proof.
  unfold kids_upto. apply filter_seq_S.
Qed.

Lemma roots_upto_S (k : nat) :
  roots_upto menuList (S k) =
  roots_upto menuList k ++ (if is_root menuList k then [k] else []).
Proof.
  unfold roots_upto. apply filter_seq_S.
Qed.

(** Decoding the meta of record [k] in place. *)
Lemma update_decoded (k : nat) (r : BackendMenuRecord) :
  nth_error menuList k = Some r ->
  update (heap_at JSON_parse menuList k k) k
         (decode_meta JSON_parse (obj_at JSON_parse menuList k k k r)) =
  heap_at JSON_parse menuList (S k) k.
Proof.
  intros Hk. apply nth_error_ext; intros j.
  rewrite nth_error_update, !nth_error_heap_at, length_heap_at.
  destruct (Nat.eqb_spec j k) as [->|Hne].
  - assert (Hlt : (k < List.length menuList)%nat)
      by (apply nth_error_Some; congruence).
    apply Nat.ltb_lt in Hlt; rewrite Hlt, Hk; simpl.
    rewrite decode_meta_value. unfold obj_at, set_meta; simpl.
    rewrite Nat.ltb_irrefl.
    assert (E : (k <? S k)%nat = true) by (apply Nat.ltb_lt; lia).
    now rewrite E.
  - destruct (nth_error menuList j) as [rj|]; simpl; auto.
    unfold obj_at. f_equal. f_equal.
    destruct (Nat.ltb_spec j k), (Nat.ltb_spec j (S k)); auto; lia.
Qed.

(** The callback on record [k], from the state the first [k] calls leave. *)
Lemma handle_menu_step (k : nat) (r : BackendMenuRecord) :
  nth_error menuList k = Some r ->
  handle_menu JSON_parse (heap_at JSON_parse menuList k k, roots_upto menuList k) k =
  if is_orphan menuList k then Raise TypeError
  else Ok (heap_at JSON_parse menuList (S k) (S k), roots_upto menuList (S k)).
Proof.
  intros Hk. unfold handle_menu.
  rewrite nth_error_heap_at, Hk; simpl.
  rewrite (update_decoded k Hk).
  rewrite decode_meta_value; simpl.
  unfold is_orphan. rewrite roots_upto_S.
  unfold is_root. rewrite (pid_at_nth k Hk).
  destruct (rec_pid r =? 0) eqn:Hroot; simpl.
  - f_equal. f_equal.
    apply nth_error_ext; intros j.
    rewrite !nth_error_heap_at.
    destruct (nth_error menuList j) as [rj|]; simpl; auto.
    unfold obj_at. rewrite kids_upto_S.
    unfold is_child_of. rewrite (pid_at_nth k Hk), Hroot; simpl.
    now rewrite app_nil_r.
  - rewrite find_parent_heap_at.
    destruct (find_parent menuList (rec_pid r)) as [p|] eqn:Hp; auto.
    destruct (find_index_Some _ _ Hp) as (rp & Hrp & _ & _).
    rewrite nth_error_heap_at, Hrp; simpl.
    rewrite app_nil_r. f_equal. f_equal.
    apply nth_error_ext; intros j.
    rewrite nth_error_update, !nth_error_heap_at, length_heap_at.
    assert (Kj : forall j, kids_upto menuList (S k) j =
                 kids_upto menuList k j ++ (if Nat.eqb p j then [k] else [])).
    { intros j0. rewrite kids_upto_S.
      unfold is_child_of. rewrite (pid_at_nth k Hk), Hroot, Hp. reflexivity. }
    destruct (Nat.eqb_spec j p) as [->|Hne].
    + assert (Hlt : (p < List.length menuList)%nat)
        by (apply nth_error_Some; congruence).
      apply Nat.ltb_lt in Hlt; rewrite Hlt, Hrp; simpl.
      unfold obj_at, set_children; simpl. f_equal. f_equal.
      rewrite Kj, Nat.eqb_refl.
      destruct (kids_upto menuList k p); reflexivity.
    + destruct (nth_error menuList j) as [rj|]; simpl; auto.
      unfold obj_at. do 3 f_equal. rewrite Kj.
      destruct (Nat.eqb_spec p j); [congruence|]. now rewrite app_nil_r.
Qed.

End Builder_facts.

Section Builder_closed.

Variable JSON_parse : string -> option jsval.
Variable menuList : list BackendMenuRecord.

Lemma heap_at_initial :
  map alloc menuList = heap_at JSON_parse menuList 0 0.
Proof.
  apply nth_error_ext; intros j.
  rewrite nth_error_map, nth_error_heap_at.
  destruct (nth_error menuList j); reflexivity.
Qed.

Lemma forEach_from (m k : nat) :
  (k + m <= List.length menuList)%nat ->
  forEach (handle_menu JSON_parse) (seq k m)
          (heap_at JSON_parse menuList k k, roots_upto menuList k) =
  if existsb (is_orphan menuList) (seq k m) then Raise TypeError
  else Ok (heap_at JSON_parse menuList (k + m) (k + m),
           roots_upto menuList (k + m)).
Proof.
  revert k; induction m as [|m IH]; intros k Hle.
  - simpl. now rewrite Nat.add_0_r.
  - cbn [seq forEach existsb].
    destruct (nth_error menuList k) as [r|] eqn:Hk.
    2:{ apply nth_error_None in Hk. lia. }
    rewrite (handle_menu_step JSON_parse menuList k Hk).
    destruct (is_orphan menuList k); simpl; auto.
    rewrite IH by lia. now rewrite Nat.add_succ_r.
Qed.

(** The loop of [handleBackMenuTree] in closed form: it raises exactly when
    some record is an orphan, and otherwise leaves every meta decoded, every
    record placed. *)
Lemma handleBackMenuTree_closed :
  handleBackMenuTree JSON_parse menuList =
  if existsb (is_orphan menuList) (seq 0 (List.length menuList))
  then Raise TypeError
  else Ok (heap_at JSON_parse menuList (List.length menuList)
                   (List.length menuList),
           roots_upto menuList (List.length menuList)).
Proof.
  unfold handleBackMenuTree. rewrite heap_at_initial.
  change (@nil nat) with (roots_upto menuList 0).
  now rewrite forEach_from by lia.
Qed.

Lemma children_refs_heap_at (km kc i : nat) :
  children_refs (heap_at JSON_parse menuList km kc) i = kids_upto menuList kc i.
Proof.
  unfold children_refs. rewrite nth_error_heap_at.
  destruct (nth_error menuList i) as [r|] eqn:Hi; simpl.
  - now destruct (kids_upto menuList kc i).
  - unfold kids_upto. symmetry.
    assert (E : forall l, List.filter (is_child_of menuList i) l = []).
    { induction l as [|j l IHl]; simpl; auto.
      replace (is_child_of menuList i j) with false; auto.
      unfold is_child_of.
      destruct (negb (pid_at menuList j =? 0)); simpl; auto.
      destruct (find_parent menuList (pid_at menuList j)) as [p|] eqn:Hp; auto.
      destruct (find_index_Some _ _ Hp) as (a & Ha & _).
      destruct (Nat.eqb_spec p i); congruence. }
    apply E.
Qed.

End Builder_closed.

Section Builder_failures.

Variable JSON_parse : string -> option jsval.
Variable ROUTE_MAP : string -> option string.
Variable menuList : list BackendMenuRecord.

Lemma is_orphan_intro (j : nat) (r : BackendMenuRecord) :
  nth_error menuList j = Some r ->
  rec_pid r <> 0 ->
  (forall r', In r' menuList -> rec_id r' <> rec_pid r) ->
  is_orphan menuList j = true.
Proof.
  intros Hj Hpid Hno. unfold is_orphan. rewrite (pid_at_nth menuList j Hj).
  apply Z.eqb_neq in Hpid; rewrite Hpid; simpl.
  destruct (find_parent menuList (rec_pid r)) as [p|] eqn:Hp; auto.
  destruct (find_index_Some _ _ Hp) as (a & Ha & Fa & _).
  apply nth_error_In in Ha. apply Z.eqb_eq in Fa. now apply Hno in Ha.
Qed.

Lemma no_orphan_of_climbs :
  (forall j, (j < List.length menuList)%nat ->
             climbs menuList (List.length menuList) j = true) ->
  existsb (is_orphan menuList) (seq 0 (List.length menuList)) = false.
Proof.
  intros H. destruct (existsb _ _) eqn:E; auto.
  apply existsb_exists in E. destruct E as (j & Hin & Ho).
  apply in_seq in Hin. specialize (H j ltac:(lia)).
  destruct (List.length menuList) as [|f]; [lia|]. simpl in H.
  unfold is_orphan, pid_at in Ho.
  destruct (nth_error menuList j) as [r|]; [|discriminate].
  destruct (rec_pid r =? 0); [discriminate|]. simpl in Ho.
  destruct (find_parent menuList (rec_pid r)); discriminate.
Qed.

(** C10. For an input with an orphan record (a nonzero [pid] that is the
    [id] of no record), [handleBackMenuTree] raises the [TypeError] of the
    unguarded [parentMenu.children], and the enclosing [try] leaves
    [backRouteList] undefined: the orphan is not skipped, no partial forest
    of the other records is produced. *)
Theorem orphan_discards_whole_forest (j : nat) (r : BackendMenuRecord) :
  nth_error menuList j = Some r ->
  rec_pid r <> 0 ->
  (forall r', In r' menuList -> rec_id r' <> rec_pid r) ->
  handleBackMenuTree JSON_parse menuList = Raise TypeError /\
  fetch_backRouteList JSON_parse ROUTE_MAP (Ok menuList) = None.
Proof.
  intros Hj Hpid Hno.
  assert (Ho := is_orphan_intro j Hj Hpid Hno).
  assert (E : handleBackMenuTree JSON_parse menuList = Raise TypeError).
  { rewrite handleBackMenuTree_closed.
    replace (existsb _ _) with true; auto.
    symmetry. apply existsb_exists. exists j. split; auto.
    apply in_seq. split; [lia|]. simpl. apply nth_error_Some. congruence. }
  split; auto.
  unfold fetch_backRouteList. simpl. now rewrite E.
Qed.

(** C8, as the code has it. A record whose [meta] fails to decode does not
    stop the builder: on an input without orphans it returns, no
    [SyntaxError] ever leaves it, and the record keeps its raw [meta]
    value; likewise [parseRouteRoles] keeps a [meta] whose [roles] fails to
    decode as it is. *)
Theorem decode_failure_keeps_raw_value (j : nat) (r : BackendMenuRecord) :
  nth_error menuList j = Some r ->
  JSON_parse (ToString (rec_meta r)) = None ->
  handleBackMenuTree JSON_parse menuList <> Raise SyntaxError /\
  (existsb (is_orphan menuList) (seq 0 (List.length menuList)) = false ->
   exists st, handleBackMenuTree JSON_parse menuList = Ok st /\
              option_map m_meta (nth_error (fst st) j) = Some (rec_meta r)) /\
  (forall me, JSON_parse (ToString (get "roles" me)) = None ->
              decode_roles JSON_parse me = me).
Proof.
  intros Hj Hfail. rewrite handleBackMenuTree_closed.
  split; [|split].
  - destruct (existsb _ _); discriminate.
  - intros ->. eexists; split; [reflexivity|]. simpl.
    rewrite nth_error_heap_at, Hj. simpl.
    unfold decode_value. rewrite Hfail.
    now destruct (j <? _)%nat, (truthy (rec_meta r)).
  - intros me Hr. unfold decode_roles, JSON_parse_val. rewrite Hr.
    now destruct (truthy _).
Qed.

End Builder_failures.

Lemma decode_failure_keeps_raw_value_witness :
  exists st, handleBackMenuTree JSON_parse_sample bad_meta = Ok st /\
             option_map m_meta (nth_error (fst st) 0) = Some (JStr "not json").
Proof.
  apply (decode_failure_keeps_raw_value JSON_parse_sample bad_meta 0
           (r := mkRecord 1 0 "Dashboard" "/dash" None (JStr "not json")));
    reflexivity.
Defined.

(** C8 as stated fails: after the builder has run on a record whose [meta]
    is not JSON, the route's [meta] is the raw text, not [undefined]. *)
Lemma malformed_meta_is_not_cleared :
  exists st, handleBackMenuTree JSON_parse_sample bad_meta = Ok st /\
             map r_meta (read_forest st) = [JStr "not json"] /\
             map r_meta (read_forest st) <> [JUndef].
Proof.
  eexists. split; [reflexivity|]. split; [reflexivity|]. discriminate.
Qed.

Lemma orphan_discards_whole_forest_witness :
  handleBackMenuTree JSON_parse_sample with_orphan = Raise TypeError /\
  fetch_backRouteList JSON_parse_sample ROUTE_MAP_sample (Ok with_orphan) = None.
Proof.
  apply (orphan_discards_whole_forest JSON_parse_sample ROUTE_MAP_sample
           with_orphan 1 (r := mkRecord 2 7 "Lost" "lost" None JUndef)).
  - reflexivity.
  - discriminate.
  - intros r' [<-|[<-|[]]]; discriminate.
Defined.

(** ** The tree builder on consistent, acyclic input *)

Section Builder_forest.

Variable JSON_parse : string -> option jsval.
Variable menuList : list BackendMenuRecord.

Lemma pid_at_out (j : nat) :
  (List.length menuList <= j)%nat -> pid_at menuList j = 0.
Proof.
  intros H. unfold pid_at.
  apply nth_error_None in H. now rewrite H.
Qed.

Lemma is_child_of_parent (i j : nat) :
  is_child_of menuList i j = true ->
  pid_at menuList j <> 0 /\ find_parent menuList (pid_at menuList j) = Some i.
Proof.
  unfold is_child_of. intros H. apply andb_true_iff in H. destruct H as [H1 H2].
  apply negb_true_iff, Z.eqb_neq in H1. split; auto.
  destruct (find_parent menuList (pid_at menuList j)) as [p|]; [|discriminate].
  apply Nat.eqb_eq in H2. now subst.
Qed.

Lemma unique_id_position (i p : nat) (ri rp : BackendMenuRecord) :
  NoDup (map rec_id menuList) ->
  nth_error menuList i = Some ri -> nth_error menuList p = Some rp ->
  rec_id ri = rec_id rp -> i = p.
Proof.
  intros Hnd Hi Hp E.
  rewrite NoDup_nth_error in Hnd. apply Hnd.
  - rewrite length_map. apply nth_error_Some. congruence.
  - rewrite !nth_error_map, Hi, Hp. simpl. congruence.
Qed.

(** With distinct nonzero ids, the records pushed under a node are those
    whose [pid] is its [id]. *)
Lemma is_child_of_pid (i j : nat) (ri : BackendMenuRecord) :
  NoDup (map rec_id menuList) ->
  (forall r, In r menuList -> rec_id r <> 0) ->
  existsb (is_orphan menuList) (seq 0 (List.length menuList)) = false ->
  nth_error menuList i = Some ri ->
  is_child_of menuList i j = (pid_at menuList j =? rec_id ri).
Proof.
  intros Hnd Hnz Hno Hi.
  assert (Hri : rec_id ri <> 0) by (apply Hnz; eapply nth_error_In; eauto).
  destruct (Nat.lt_ge_cases j (List.length menuList)) as [Hj|Hj].
  2:{ unfold is_child_of. rewrite (pid_at_out Hj).
      destruct (0 =? rec_id ri) eqn:E; [|reflexivity].
      apply Z.eqb_eq in E. congruence. }
  unfold is_child_of.
  destruct (pid_at menuList j =? 0) eqn:Hz; simpl.
  - apply Z.eqb_eq in Hz. rewrite Hz. symmetry. apply Z.eqb_neq. congruence.
  - destruct (find_parent menuList (pid_at menuList j)) as [p|] eqn:Hp.
    + destruct (find_index_Some _ _ Hp) as (rp & Hrp & Frp & _).
      apply Z.eqb_eq in Frp.
      destruct (Nat.eqb_spec p i) as [->|Hne].
      * symmetry. apply Z.eqb_eq. congruence.
      * symmetry. apply Z.eqb_neq. intros E. apply Hne. symmetry.
        eapply unique_id_position; eauto. congruence.
    + exfalso.
      assert (Ho : existsb (is_orphan menuList) (seq 0 (List.length menuList)) = true).
      { apply existsb_exists. exists j. split; [apply in_seq; lia|].
        unfold is_orphan. now rewrite Hz, Hp. }
      congruence.
Qed.

(** Each record is pushed once: counting the pushes. *)
Lemma length_filter_eqb (p : nat) (I : list nat) :
  NoDup I -> (List.length (List.filter (Nat.eqb p) I) <= 1)%nat.
Proof.
  induction 1 as [|i I Hni Hnd IH]; simpl; auto.
  destruct (Nat.eqb_spec p i) as [->|Hne]; simpl; auto.
  replace (List.filter (Nat.eqb i) I) with (@nil nat); simpl; auto.
  symmetry. clear IH Hnd. induction I as [|x I IHI]; simpl; auto.
  destruct (Nat.eqb_spec i x) as [->|]; [exfalso; apply Hni; now left|].
  apply IHI. intros H; apply Hni; now right.
Qed.

Lemma pushes_once (j : nat) (I : list nat) :
  NoDup I ->
  ((if is_root menuList j then 1 else 0) +
   List.length (List.filter (fun i => is_child_of menuList i j) I) <= 1)%nat.
Proof.
  intros Hnd. unfold is_root, is_child_of.
  destruct (pid_at menuList j =? 0); simpl.
  - replace (List.filter (fun _ => false) I) with (@nil nat); simpl; auto.
    clear Hnd. induction I; simpl; auto.
  - destruct (find_parent menuList (pid_at menuList j)) as [p|].
    + apply length_filter_eqb; auto.
    + replace (List.filter (fun _ => false) I) with (@nil nat); simpl; auto.
      clear Hnd. induction I; simpl; auto.
Qed.

Lemma length_flat_map_cons (j : nat) (L I : list nat) :
  List.length (flat_map (fun i => List.filter (is_child_of menuList i) (j :: L)) I) =
  (List.length (List.filter (fun i => is_child_of menuList i j) I) +
   List.length (flat_map (fun i => List.filter (is_child_of menuList i) L) I))%nat.
Proof.
  induction I as [|i I IH]; [reflexivity|].
  cbn [flat_map]. rewrite !length_app, IH. simpl.
  destruct (is_child_of menuList i j); simpl; lia.
Qed.

Lemma length_refs_le (L I : list nat) :
  NoDup I ->
  (List.length (List.filter (is_root menuList) L) +
   List.length (flat_map (fun i => List.filter (is_child_of menuList i) L) I)
   <= List.length L)%nat.
Proof.
  intros Hnd. induction L as [|j L IH].
  - simpl. replace (flat_map _ I) with (@nil nat); [simpl; lia|].
    clear Hnd. induction I; simpl; auto.
  - rewrite length_flat_map_cons. simpl.
    pose proof (pushes_once j Hnd) as Hp.
    destruct (is_root menuList j); simpl in *; lia.
Qed.

Lemma all_refs_closed (km : nat) :
  let n := List.length menuList in
  all_refs (heap_at JSON_parse menuList km n, roots_upto menuList n) =
  roots_upto menuList n ++
  flat_map (fun i => List.filter (is_child_of menuList i) (seq 0 n)) (seq 0 n).
Proof.
  intros n. unfold all_refs. simpl. rewrite length_heap_at. f_equal.
  apply flat_map_ext. intros i. apply children_refs_heap_at.
Qed.

Lemma all_refs_permutation (km : nat) :
  let n := List.length menuList in
  existsb (is_orphan menuList) (seq 0 n) = false ->
  Permutation (all_refs (heap_at JSON_parse menuList km n, roots_upto menuList n))
              (seq 0 n).
Proof.
  intros n Hno. rewrite all_refs_closed. fold n. symmetry.
  apply NoDup_Permutation_bis.
  - apply seq_NoDup.
  - rewrite length_app. unfold roots_upto.
    apply length_refs_le. apply seq_NoDup.
  - intros j Hj. apply in_or_app.
    destruct (is_root menuList j) eqn:Hr.
    + left. unfold roots_upto. apply filter_In. auto.
    + right. apply in_flat_map.
      assert (Ho : is_orphan menuList j = false).
      { destruct (is_orphan menuList j) eqn:E; auto.
        assert (existsb (is_orphan menuList) (seq 0 n) = true)
          by (apply existsb_exists; eauto).
        congruence. }
      unfold is_root in Hr. unfold is_orphan in Ho. rewrite Hr in Ho. simpl in Ho.
      destruct (find_parent menuList (pid_at menuList j)) as [p|] eqn:Hp;
        [|discriminate].
      destruct (find_index_Some _ _ Hp) as (rp & Hrp & _).
      exists p. split.
      * apply in_seq. split; [lia|]. simpl. apply nth_error_Some. congruence.
      * apply filter_In. split; auto.
        unfold is_child_of. rewrite Hr, Hp. simpl. apply Nat.eqb_refl.
Qed.

Lemma climbs_reachable (km fuel j : nat) :
  let n := List.length menuList in
  climbs menuList fuel j = true ->
  reachable (heap_at JSON_parse menuList km n, roots_upto menuList n) j.
Proof.
  intros n. revert j; induction fuel as [|fuel IH]; intros j; simpl;
    [discriminate|].
  destruct (nth_error menuList j) as [r|] eqn:Hj; [|discriminate].
  assert (Hlt : (j < n)%nat) by (apply nth_error_Some; congruence).
  destruct (rec_pid r =? 0) eqn:Hz.
  - intros _. apply reach_root. simpl. unfold roots_upto.
    apply filter_In. split; [apply in_seq; lia|].
    unfold is_root. now rewrite (pid_at_nth menuList j Hj).
  - destruct (find_parent menuList (rec_pid r)) as [p|] eqn:Hp; [|discriminate].
    intros Hc. apply reach_child with (i := p); auto.
    simpl. rewrite children_refs_heap_at. unfold kids_upto.
    apply filter_In. split; [apply in_seq; lia|].
    unfold is_child_of. rewrite (pid_at_nth menuList j Hj), Hz, Hp. simpl.
    apply Nat.eqb_refl.
Qed.

End Builder_forest.

(** ** The depth that [read_forest] follows is enough *)

Section Fuel.

Variable JSON_parse : string -> option jsval.
Variable menuList : list BackendMenuRecord.

Lemma depth_of_unique (d1 d2 j : nat) :
  depth_of menuList d1 j -> depth_of menuList d2 j -> d1 = d2.
Proof.
  intros H1; revert d2; induction H1 as [j Hj Hz | d j p Hnz Hp Hd IH];
    intros d2 H2; inversion H2; subst; auto; try congruence.
  f_equal. apply IH. congruence.
Qed.

Lemma depth_of_lt (d j : nat) :
  depth_of menuList d j -> (j < List.length menuList)%nat.
Proof.
  intros H; inversion H; subst; auto.
  unfold pid_at in *. apply nth_error_Some.
  destruct (nth_error menuList j); congruence.
Qed.

(** The ancestors of a record at depth [d] are [d + 1] distinct records. *)
Lemma depth_of_chain (d j : nat) :
  depth_of menuList d j ->
  exists l, NoDup l /\ List.length l = S d /\
            forall x, In x l -> exists d', (d' <= d)%nat /\ depth_of menuList d' x.
Proof.
  induction 1 as [j Hj Hz | d j p Hnz Hp Hd (l & Hnd & Hlen & Hall)].
  - exists [j]. repeat split; simpl; auto.
    + constructor; [intros []|constructor].
    + intros x [<-|[]]. exists 0%nat. split; auto. now constructor.
  - exists (j :: l). repeat split; simpl; auto.
    + constructor; auto. intros Hin.
      destruct (Hall j Hin) as (d' & Hle & Hd').
      assert (Hj : depth_of menuList (S d) j) by (econstructor; eauto).
      pose proof (depth_of_unique Hd' Hj). lia.
    + intros x [<-|Hin].
      * exists (S d). split; auto. econstructor; eauto.
      * destruct (Hall x Hin) as (d' & Hle & Hd'). exists d'. split; auto.
Qed.

Lemma depth_of_bound (d j : nat) :
  depth_of menuList d j -> (d < List.length menuList)%nat.
Proof.
  intros H. destruct (depth_of_chain H) as (l & Hnd & Hlen & Hall).
  assert (Hincl : incl l (seq 0 (List.length menuList))).
  { intros x Hx. destruct (Hall x Hx) as (d' & _ & Hd').
    apply in_seq. split; [lia|]. simpl. eapply depth_of_lt; eauto. }
  pose proof (NoDup_incl_length Hnd Hincl) as Hle.
  rewrite length_seq in Hle. lia.
Qed.

Lemma read_route_fuel (km : nat) (f1 : nat) :
  let n := List.length menuList in
  forall f2 d j,
    depth_of menuList d j -> (n <= d + f1)%nat -> (n <= d + f2)%nat ->
    read_route (heap_at JSON_parse menuList km n) f1 j =
    read_route (heap_at JSON_parse menuList km n) f2 j.
Proof.
  intros n. induction f1 as [|f1 IH]; intros f2 d j Hd H1 H2.
  - pose proof (depth_of_bound Hd). lia.
  - destruct f2 as [|f2]; [pose proof (depth_of_bound Hd); lia|].
    cbn [read_route]. f_equal.
    pose proof (children_refs_heap_at JSON_parse menuList km n j) as Hc.
    unfold children_refs in Hc.
    pose proof (depth_of_lt Hd) as Hj.
    rewrite (nth_error_nth' _ blank_obj) in Hc by now rewrite length_heap_at.
    destruct (m_children (nth j (heap_at JSON_parse menuList km n) blank_obj))
      as [cs|]; auto.
    simpl. f_equal. apply map_ext_in. intros c Hin.
    rewrite Hc in Hin. unfold kids_upto in Hin. apply filter_In in Hin.
    destruct Hin as [_ Hch]. apply is_child_of_parent in Hch.
    destruct Hch as [Hnz Hp].
    apply IH with (d := S d); try lia.
    econstructor; eauto.
Qed.

(** Reading the returned forest to any greater depth gives the same
    forest: no object that is reachable from [menus] is cut off. *)
Lemma read_forest_fuel_enough (st : store) (k : nat) :
  handleBackMenuTree JSON_parse menuList = Ok st ->
  map (read_route (fst st) (List.length (fst st) + k)) (snd st) = read_forest st.
Proof.
  rewrite handleBackMenuTree_closed.
  destruct (existsb _ _); [discriminate|]. intros [= <-].
  unfold read_forest. simpl. rewrite length_heap_at.
  apply map_ext_in. intros r Hr.
  unfold roots_upto in Hr. apply filter_In in Hr. destruct Hr as [Hin Hroot].
  apply in_seq in Hin. apply Z.eqb_eq in Hroot.
  apply read_route_fuel with (d := 0%nat); try lia.
  constructor; auto. lia.
Qed.

End Fuel.

(** ** The returned forest as a tree *)

Lemma NoDup_flat_map_disjoint (A B : Type) (f : A -> list B) (l : list A) :
  NoDup l ->
  (forall a, In a l -> NoDup (f a)) ->
  (forall a b x, In a l -> In b l -> In x (f a) -> In x (f b) -> a = b) ->
  NoDup (flat_map f l).
Proof.
  induction 1 as [|a l Ha Hnd IH]; intros Hf Hdis; simpl; [constructor|].
  apply NoDup_app.
  - apply Hf. now left.
  - apply IH.
    + intros b Hb. apply Hf. now right.
    + intros b c x Hb Hc. apply Hdis; now right.
  - intros x Hx Hin. apply in_flat_map in Hin. destruct Hin as (b & Hb & Hxb).
    assert (a = b) by (apply (Hdis a b x); simpl; auto).
    subst. contradiction.
Qed.

Section Forest_tree.

Variable JSON_parse : string -> option jsval.
Variable menuList : list BackendMenuRecord.

Local Abbreviation n := (List.length menuList).
Local Abbreviation heap := (heap_at JSON_parse menuList n n).

Lemma ancestor_at_unique (k i i' x : nat) :
  ancestor_at menuList k i x -> ancestor_at menuList k i' x -> i = i'.
Proof.
  intros H; revert i'; induction H as [x | k i x p Hnz Hp Ha IH];
    intros i' H'; inversion H'; subst; auto.
  apply IH. congruence.
Qed.

Lemma ancestor_at_depth (k i x d : nat) :
  ancestor_at menuList k i x -> depth_of menuList d i ->
  depth_of menuList (k + d) x.
Proof.
  induction 1 as [x | k i x p Hnz Hp Ha IH]; intros Hd; simpl; auto.
  econstructor; eauto.
Qed.

Lemma ancestor_at_child (k i x : nat) :
  ancestor_at menuList (S k) i x ->
  exists c, is_child_of menuList i c = true /\ ancestor_at menuList k c x.
Proof.
  remember (S k) as m eqn:Em. intros H; revert k Em.
  induction H as [x | m i x p Hnz Hp Ha IH]; intros k Em; [discriminate|].
  injection Em as ->. destruct k as [|k].
  - inversion Ha; subst. exists x. split; [|constructor].
    unfold is_child_of. rewrite Hp, Nat.eqb_refl.
    apply Z.eqb_neq in Hnz. now rewrite Hnz.
  - destruct (IH k eq_refl) as (c & Hc & Hcx).
    exists c. split; auto. econstructor; eauto.
Qed.

Lemma child_lt (i c : nat) :
  is_child_of menuList i c = true -> (c < n)%nat.
Proof.
  intros H. apply is_child_of_parent in H. destruct H as [Hnz _].
  destruct (Nat.lt_ge_cases c n) as [|Hge]; auto.
  now rewrite (pid_at_out menuList Hge) in Hnz.
Qed.

Lemma in_kids (i c : nat) :
  In c (children_refs heap i) <-> is_child_of menuList i c = true.
Proof.
  rewrite children_refs_heap_at. unfold kids_upto. rewrite filter_In, in_seq.
  split; [tauto|]. intros H. split; auto.
  pose proof (child_lt i c H). lia.
Qed.

Lemma visit_ancestor (f i x : nat) :
  In x (visit heap f i) -> exists k, ancestor_at menuList k i x.
Proof.
  revert i; induction f as [|f IH]; intros i; simpl.
  - intros [<-|[]]. exists 0%nat. constructor.
  - intros [<-|Hin]; [exists 0%nat; constructor|].
    apply in_flat_map in Hin. destruct Hin as (c & Hc & Hx).
    apply in_kids, is_child_of_parent in Hc. destruct Hc as [Hnz Hp].
    destruct (IH c Hx) as (k & Hk). exists (k + 1)%nat.
    clear - Hk Hnz Hp. induction Hk as [x | k c x p Hnz' Hp' Ha IHa]; simpl.
    + econstructor; eauto. constructor.
    + econstructor; eauto.
Qed.

Lemma in_visit (f k i x : nat) :
  ancestor_at menuList k i x -> (k <= f)%nat -> In x (visit heap f i).
Proof.
  revert k i; induction f as [|f IH]; intros k i Ha Hle.
  - assert (k = 0%nat) by lia. subst. inversion Ha; subst. now left.
  - destruct k as [|k]; [inversion Ha; subst; now left|].
    destruct (ancestor_at_child Ha) as (c & Hc & Hcx).
    simpl. right. apply in_flat_map. exists c. split.
    + now apply in_kids.
    + apply IH with (k := k); auto. lia.
Qed.

Lemma NoDup_visit (f i d : nat) :
  depth_of menuList d i -> NoDup (visit heap f i).
Proof.
  revert i d; induction f as [|f IH]; intros i d Hd; simpl.
  - constructor; [intros []|constructor].
  - constructor.
    + intros Hin. apply in_flat_map in Hin. destruct Hin as (c & Hc & Hx).
      apply in_kids in Hc. destruct (visit_ancestor _ _ _ Hx) as (k & Hk).
      assert (Hdc : depth_of menuList (S d) c).
      { apply is_child_of_parent in Hc. destruct Hc. econstructor; eauto. }
      pose proof (ancestor_at_depth Hk Hdc) as Hdi.
      pose proof (depth_of_unique Hd Hdi). lia.
    + apply NoDup_flat_map_disjoint.
      * rewrite children_refs_heap_at. unfold kids_upto.
        apply NoDup_filter, seq_NoDup.
      * intros c Hc. apply in_kids, is_child_of_parent in Hc.
        destruct Hc. apply IH with (d := S d). econstructor; eauto.
      * intros a b x Ha Hb Hxa Hxb.
        apply in_kids, is_child_of_parent in Ha. destruct Ha.
        apply in_kids, is_child_of_parent in Hb. destruct Hb.
        assert (Hda : depth_of menuList (S d) a) by (econstructor; eauto).
        assert (Hdb : depth_of menuList (S d) b) by (econstructor; eauto).
        destruct (visit_ancestor _ _ _ Hxa) as (ka & Hka).
        destruct (visit_ancestor _ _ _ Hxb) as (kb & Hkb).
        pose proof (depth_of_unique (ancestor_at_depth Hka Hda)
                                    (ancestor_at_depth Hkb Hdb)) as E.
        assert (ka = kb) by lia. subst.
        eapply ancestor_at_unique; eauto.
Qed.

Lemma depth_of_root_ancestor (d j : nat) :
  depth_of menuList d j ->
  exists r, In r (roots_upto menuList n) /\ ancestor_at menuList d r j.
Proof.
  induction 1 as [j Hj Hz | d j p Hnz Hp Hd (r & Hr & Ha)].
  - exists j. split; [|constructor].
    unfold roots_upto. apply filter_In. split; [apply in_seq; lia|].
    unfold is_root. now apply Z.eqb_eq.
  - exists r. split; auto. econstructor; eauto.
Qed.

Lemma climbs_depth (fuel j : nat) :
  climbs menuList fuel j = true -> exists d, depth_of menuList d j.
Proof.
  revert j; induction fuel as [|fuel IH]; intros j; simpl; [discriminate|].
  destruct (nth_error menuList j) as [r|] eqn:Hj; [|discriminate].
  assert (Hlt : (j < n)%nat) by (apply nth_error_Some; congruence).
  destruct (rec_pid r =? 0) eqn:Hz.
  - intros _. exists 0%nat. constructor; auto.
    rewrite (pid_at_nth menuList j Hj). now apply Z.eqb_eq.
  - destruct (find_parent menuList (rec_pid r)) as [p|] eqn:Hp; [|discriminate].
    intros Hc. destruct (IH p Hc) as (d & Hd). exists (S d).
    econstructor; eauto; rewrite (pid_at_nth menuList j Hj); auto.
    now apply Z.eqb_neq.
Qed.

(** On acyclic input the depth-first visit of the roots meets every
    position exactly once. *)
Lemma visit_roots_permutation :
  (forall j, (j < n)%nat -> climbs menuList n j = true) ->
  Permutation (flat_map (visit heap n) (roots_upto menuList n)) (seq 0 n).
Proof.
  intros Hcl.
  assert (Hroot : forall r, In r (roots_upto menuList n) ->
                            depth_of menuList 0 r).
  { intros r Hr. unfold roots_upto in Hr. apply filter_In in Hr.
    destruct Hr as [Hin Hz]. apply in_seq in Hin. apply Z.eqb_eq in Hz.
    constructor; auto. lia. }
  apply NoDup_Permutation.
  - apply NoDup_flat_map_disjoint.
    + unfold roots_upto. apply NoDup_filter, seq_NoDup.
    + intros r Hr. apply NoDup_visit with (d := 0%nat). auto.
    + intros a b x Ha Hb Hxa Hxb.
      destruct (visit_ancestor _ _ _ Hxa) as (ka & Hka).
      destruct (visit_ancestor _ _ _ Hxb) as (kb & Hkb).
      pose proof (depth_of_unique (ancestor_at_depth Hka (Hroot a Ha))
                                  (ancestor_at_depth Hkb (Hroot b Hb))) as E.
      assert (ka = kb) by lia. subst.
      eapply ancestor_at_unique; eauto.
  - apply seq_NoDup.
  - intros x. rewrite in_flat_map, in_seq. split.
    + intros (r & Hr & Hx). split; [lia|]. simpl.
      destruct (visit_ancestor _ _ _ Hx) as (k & Hk).
      eapply depth_of_lt. eapply ancestor_at_depth; eauto.
    + intros [_ Hx]. simpl in Hx.
      destruct (climbs_depth _ _ (Hcl x Hx)) as (d & Hd).
      destruct (depth_of_root_ancestor Hd) as (r & Hr & Ha).
      exists r. split; auto. apply in_visit with (k := d); auto.
      pose proof (depth_of_bound Hd). lia.
Qed.

Lemma ids_read_route (h : list menu_obj) (f i : nat) :
  (forall j, nth_error h j = None -> m_children (nth j h blank_obj) = None) ->
  ids_route (read_route h f i) =
  map (fun j => m_id (nth j h blank_obj)) (visit h f i).
Proof.
  intros Hout. revert i; induction f as [|f IH]; intros i; simpl; auto.
  f_equal. unfold children_refs.
  destruct (nth_error h i) as [m|] eqn:Hi.
  - rewrite (nth_error_nth _ _ blank_obj Hi).
    destruct (m_children m) as [cs|]; simpl; auto.
    induction cs as [|c cs IHcs]; simpl; auto.
    now rewrite map_app, IH, IHcs.
  - now rewrite (Hout i Hi).
Qed.

(** The ids of the returned forest are the ids of the records, each once. *)
Lemma ids_read_forest_permutation :
  (forall j, (j < n)%nat -> climbs menuList n j = true) ->
  Permutation (ids (read_forest (heap, roots_upto menuList n)))
              (map rec_id menuList).
Proof.
  intros Hcl. unfold ids, read_forest. simpl. rewrite length_heap_at.
  rewrite flat_map_concat_map, map_map, <- flat_map_concat_map.
  rewrite (flat_map_ext _ (fun r => map (fun j => m_id (nth j heap blank_obj))
                                        (visit heap n r))).
  2:{ intros r. apply ids_read_route. intros j Hj.
      rewrite nth_overflow; auto. now apply nth_error_None. }
  assert (E : forall l, flat_map (fun r => map (fun j => m_id (nth j heap blank_obj))
                                               (visit heap n r)) l =
                        map (fun j => m_id (nth j heap blank_obj))
                            (flat_map (visit heap n) l)).
  { induction l as [|a l IHl]; simpl; auto. now rewrite map_app, IHl. }
  rewrite E, (Permutation_map _ (visit_roots_permutation Hcl)).
  replace (map (fun j => m_id (nth j heap blank_obj)) (seq 0 n))
    with (map rec_id menuList); auto.
  apply nth_error_ext. intros j.
  rewrite !nth_error_map.
  destruct (nth_error menuList j) as [r|] eqn:Hj; simpl.
  - assert (Hlt : (j < n)%nat) by (apply nth_error_Some; congruence).
    rewrite nth_error_seq. apply Nat.ltb_lt in Hlt. rewrite Hlt. simpl.
    pose proof (nth_error_heap_at JSON_parse menuList n n j) as Hh.
    rewrite Hj in Hh. simpl in Hh.
    now rewrite (nth_error_nth _ _ blank_obj Hh).
  - apply nth_error_None in Hj. rewrite nth_error_seq.
    apply Nat.ltb_ge in Hj. now rewrite Hj.
Qed.

End Forest_tree.

Section Builder_theorem.

Variable JSON_parse : string -> option jsval.
Variable menuList : list BackendMenuRecord.

(** C2, amended. For a flat list whose ids are distinct and nonzero and in
    which following parent ids from any record ends at a record with
    [pid = 0] (so every nonzero [pid] is the [id] of a record, and there is
    no cycle), [handleBackMenuTree] returns; the records keep their ids;
    the roots are the records with [pid = 0] in input order; the children
    of a node are the records whose [pid] is its [id], in input order;
    every record is referenced exactly once in the forest and is reachable
    from a root; read as a tree, the forest holds the id of every record
    exactly once. *)
Theorem handleBackMenuTree_builds_forest :
  let n := List.length menuList in
  NoDup (map rec_id menuList) ->
  (forall r, In r menuList -> rec_id r <> 0) ->
  (forall j, (j < n)%nat -> climbs menuList n j = true) ->
  exists st,
    handleBackMenuTree JSON_parse menuList = Ok st /\
    map m_id (fst st) = map rec_id menuList /\
    map m_pid (fst st) = map rec_pid menuList /\
    snd st = List.filter (fun j => pid_at menuList j =? 0) (seq 0 n) /\
    (forall i r, nth_error menuList i = Some r ->
       children_refs (fst st) i =
       List.filter (fun j => pid_at menuList j =? rec_id r) (seq 0 n)) /\
    Permutation (all_refs st) (seq 0 n) /\
    (forall j, (j < n)%nat -> reachable st j) /\
    Permutation (ids (read_forest st)) (map rec_id menuList).
Proof.
  intros n Hnd Hnz Hcl. subst n.
  pose proof (no_orphan_of_climbs menuList Hcl) as Hno.
  rewrite handleBackMenuTree_closed, Hno.
  eexists; split; [reflexivity|].
  split; [|split; [|split; [|split; [|split; [|split]]]]];
    [ | | | | | |now apply ids_read_forest_permutation]; simpl.
  - apply nth_error_ext; intros j.
    rewrite !nth_error_map, nth_error_heap_at.
    now destruct (nth_error menuList j).
  - apply nth_error_ext; intros j.
    rewrite !nth_error_map, nth_error_heap_at.
    now destruct (nth_error menuList j).
  - reflexivity.
  - intros i r Hi. rewrite children_refs_heap_at. unfold kids_upto.
    apply filter_ext. intros j. now apply is_child_of_pid.
  - now apply all_refs_permutation.
  - intros j Hj. apply climbs_reachable with (fuel := List.length menuList).
    auto.
Qed.

End Builder_theorem.

Lemma handleBackMenuTree_builds_forest_witness :
  exists st,
    handleBackMenuTree JSON_parse_sample small_tree = Ok st /\
    snd st = [1%nat] /\
    children_refs (fst st) 1 = [0%nat; 3%nat] /\
    Permutation (all_refs st) (seq 0 4).
Proof.
  destruct (handleBackMenuTree_builds_forest JSON_parse_sample small_tree)
    as (st & H1 & _ & _ & H2 & H3 & H4 & _ & _).
  - repeat constructor; simpl; intuition discriminate.
  - intros r [<-|[<-|[<-|[<-|[]]]]]; discriminate.
  - intros j Hj. simpl in Hj.
    destruct j as [|[|[|[|j]]]]; try reflexivity. lia.
  - exists st. repeat split; auto.
    rewrite (H3 1%nat (mkRecord 1 0 "Dashboard" "/dash" None JUndef) eq_refl).
    reflexivity.
Defined.

(** C2 as stated fails. A record that names itself as its parent has
    consistent parent references, yet the returned forest is empty and the
    record is not reachable from any root.  With consistent references and
    two records of the same id, the second of them gets no children although
    a record has its id as [pid]; and a record with the id [0] has itself
    as a record whose [pid] is its id, and no children. *)
Lemma consistent_parents_do_not_suffice :
  (consistent_parents self_parent = true /\
   exists st, handleBackMenuTree JSON_parse_sample self_parent = Ok st /\
              read_forest st = [] /\
              ~ reachable st 0%nat) /\
  (consistent_parents twin_ids = true /\
   exists st, handleBackMenuTree JSON_parse_sample twin_ids = Ok st /\
              children_refs (fst st) 1 = [] /\
              List.filter (fun j => pid_at twin_ids j =? 1) (seq 0 3) = [2%nat]) /\
  (consistent_parents zero_id = true /\
   exists st, handleBackMenuTree JSON_parse_sample zero_id = Ok st /\
              children_refs (fst st) 0 = [] /\
              List.filter (fun j => pid_at zero_id j =? 0) (seq 0 1) = [0%nat]).
Proof.
  split; [|split].
  - split; [reflexivity|].
    eexists. split; [reflexivity|]. split; [reflexivity|].
    intros H. remember 0%nat as j0 eqn:Ej. clear Ej.
    induction H as [r Hr | i k Hi IH Hk]; [exact Hr | exact IH].
  - split; [reflexivity|]. eexists. repeat split; reflexivity.
  - split; [reflexivity|]. eexists. repeat split; reflexivity.
Qed.

(** ** Induction on routes *)

Lemma route_nested_ind (P : route -> Prop) :
  (forall i p n pa rd me co, P (mkRoute i p n pa rd me co None)) ->
  (forall i p n pa rd me co cs,
      Forall P cs -> P (mkRoute i p n pa rd me co (Some cs))) ->
  forall r, P r.
Proof.
  intros HN HS. fix IH 1. intros [i p n pa rd me co [cs|]].
  - apply HS. induction cs as [|c cs IHcs]; constructor.
    + apply IH.
    + apply IHcs.
  - apply HN.
Qed.

(** ** [patchHomeAffix] *)

Lemma metas_of_walk (prefix : string) (r : route) :
  map (fun x => r_meta (snd x)) (walk_route prefix r) = metas_route r.
Proof.
  revert prefix. induction r as [i p n pa rd me co | i p n pa rd me co cs IH]
    using route_nested_ind; intros prefix; simpl; auto.
  f_equal. generalize (with_slash (resolve_path prefix pa)) as q.
  induction IH as [|c cs Hc _ IHcs]; intros q; simpl; auto.
  now rewrite map_app, Hc, IHcs.
Qed.

Lemma metas_of_walk_forest (prefix : string) (l : list route) :
  map (fun x => r_meta (snd x)) (walk prefix l) = metas l.
Proof.
  induction l as [|r l IH]; simpl; auto.
  unfold walk, metas in *. simpl. now rewrite map_app, metas_of_walk, IH.
Qed.

Lemma first_match_walk_app (l1 l2 : list (string * route)) (home : string) :
  first_match_walk (l1 ++ l2) home =
  let '(m1, h1, t1) := first_match_walk l1 home in
  if t1 then (m1 ++ map (fun x => r_meta (snd x)) l2, h1, true)
  else let '(m2, h2, t2) := first_match_walk l2 h1 in (m1 ++ m2, h2, t2).
Proof.
  revert home; induction l1 as [|[cp r] l1 IH]; intros home; simpl.
  - now destruct (first_match_walk l2 home) as [[m2 h2] t2].
  - destruct (String.eqb cp home).
    + destruct (declared (r_redirect r)) as [target|].
      * rewrite IH. destruct (first_match_walk l1 target) as [[m1 h1] [|]]; auto.
        now destruct (first_match_walk l2 h1) as [[m2 h2] t2].
      * now rewrite map_app.
    + rewrite IH. destruct (first_match_walk l1 home) as [[m1 h1] [|]]; auto.
      now destruct (first_match_walk l2 h1) as [[m2 h2] t2].
Qed.

Lemma forEach_until_agrees (l : list route) :
  Forall (fun r => forall prefix home,
            let '(r', h', t) := patcher_route prefix home r in
            (metas_route r', h', t) = first_match_walk (walk_route prefix r) home /\
            shape_route r' = shape_route r) l ->
  forall prefix home,
    let '(l', h', t) := patcher prefix l home in
    patcher_agrees prefix home l l' h' t.
Proof.
  unfold patcher_agrees, patcher.
  induction 1 as [|x l Hx _ IH]; intros prefix home.
  - simpl. auto.
  - cbn [forEach_until]. specialize (Hx prefix home).
    destruct (patcher_route prefix home x) as [[x' h1] t1].
    destruct Hx as [Hm Hs].
    unfold walk, metas, shape. cbn [flat_map map].
    rewrite first_match_walk_app, <- Hm.
    destruct t1.
    + cbn [flat_map map]. split.
      * fold (walk prefix l). fold (metas l). now rewrite metas_of_walk_forest.
      * now rewrite Hs.
    + specialize (IH prefix h1).
      destruct (forEach_until (patcher_route prefix) l h1) as [[l'' h2] t2].
      destruct IH as [IHm IHs]. fold (walk prefix l). rewrite <- IHm.
      cbn [flat_map map]. split; [reflexivity|].
      unfold shape in IHs. now rewrite Hs, IHs.
Qed.

Lemma patcher_route_agrees (r : route) (prefix home : string) :
  let '(r', h', t) := patcher_route prefix home r in
  (metas_route r', h', t) = first_match_walk (walk_route prefix r) home /\
  shape_route r' = shape_route r.
Proof.
  revert prefix home.
  induction r as [i p n pa rd me co | i p n pa rd me co cs IH]
    using route_nested_ind; intros prefix home.
  - simpl. destruct (String.eqb (resolve_path prefix pa) home);
      destruct (declared rd); simpl; auto.
  - pose proof (forEach_until_agrees IH) as Hl. unfold patcher_agrees, patcher in Hl.
    cbn [patcher_route walk_route first_match_walk r_redirect r_meta].
    set (cp := resolve_path prefix pa).
    fold (walk (with_slash cp) cs).
    destruct (String.eqb cp home) eqn:Hit;
      destruct (declared rd) as [target|] eqn:Hrd.
    + destruct cs as [|c cs].
      * simpl. auto.
      * specialize (Hl (with_slash cp) target).
        destruct (forEach_until _ (c :: cs) target) as [[l' h'] t'].
        destruct Hl as [Hm Hs]. rewrite <- Hm. split; [reflexivity|].
        cbn [shape_route option_map]. unfold shape in Hs. now rewrite Hs.
    + split; [|reflexivity]. cbn [metas_route]. do 2 f_equal.
      f_equal. symmetry. apply metas_of_walk_forest.
    + destruct cs as [|c cs].
      * simpl. auto.
      * specialize (Hl (with_slash cp) home).
        destruct (forEach_until _ (c :: cs) home) as [[l' h'] t'].
        destruct Hl as [Hm Hs]. rewrite <- Hm. split; [reflexivity|].
        cbn [shape_route option_map]. unfold shape in Hs. now rewrite Hs.
    + destruct cs as [|c cs].
      * simpl. auto.
      * specialize (Hl (with_slash cp) home).
        destruct (forEach_until _ (c :: cs) home) as [[l' h'] t'].
        destruct Hl as [Hm Hs]. rewrite <- Hm. split; [reflexivity|].
        cbn [shape_route option_map]. unfold shape in Hs. now rewrite Hs.
Qed.

Lemma patcher_agrees_walk (prefix home : string) (l : list route) :
  let '(l', h', t) := patcher prefix l home in
  patcher_agrees prefix home l l' h' t.
Proof.
  apply forEach_until_agrees.
  apply Forall_forall. intros r _ p h. apply patcher_route_agrees.
Qed.

(** The walk changes at most one meta, and only by adding [affix]. *)
Lemma first_match_walk_one_change (l : list (string * route)) (home : string) :
  let ms := map (fun x => r_meta (snd x)) l in
  let ms' := fst (fst (first_match_walk l home)) in
  ms' = ms \/
  exists pre m post, ms = pre ++ m :: post /\
                     ms' = pre ++ assign_affix m :: post.
Proof.
  revert home; induction l as [|[cp r] l IH]; intros home; simpl; auto.
  assert (Step : forall h,
    let ms := map (fun x => r_meta (snd x)) l in
    let ms' := fst (fst (first_match_walk l h)) in
    r_meta r :: ms' = r_meta r :: ms \/
    exists pre m post, r_meta r :: ms = pre ++ m :: post /\
                       r_meta r :: ms' = pre ++ assign_affix m :: post).
  { intros h. destruct (IH h) as [E|(pre & m & post & E1 & E2)].
    - left. simpl. now rewrite E.
    - right. exists (r_meta r :: pre), m, post. simpl. now rewrite E1, E2. }
  destruct (String.eqb cp home).
  - destruct (declared (r_redirect r)) as [target|].
    + specialize (Step target).
      now destruct (first_match_walk l target) as [[ms h] t].
    + right. exists [], (r_meta r), (map (fun x => r_meta (snd x)) l). auto.
  - specialize (Step home).
    now destruct (first_match_walk l home) as [[ms h] t].
Qed.

Lemma patchHomeAffix_as_walk
      (userHomePath : option string) (BASE_HOME : string) (routes : list route) :
  let home := initial_homePath userHomePath BASE_HOME in
  let routes' := patchHomeAffix userHomePath BASE_HOME routes in
  shape routes' = shape routes /\
  metas routes' = fst (fst (first_match_walk (walk "" routes) home)).
Proof.
  intros home routes'. subst routes'. unfold patchHomeAffix.
  destruct routes as [|r l]; [simpl; auto|].
  pose proof (patcher_agrees_walk (with_slash "") home (r :: l)) as H.
  fold home.
  destruct (patcher (with_slash "") (r :: l) home) as [[l' h'] t].
  destruct H as [Hm Hs]. simpl fst. split; auto.
  change (with_slash "") with "" in Hm.
  change (walk_route "" r ++ walk "" l) with (walk "" (r :: l)).
  now rewrite <- Hm.
Qed.

Lemma patchHomeAffix_one_change
      (userHomePath : option string) (BASE_HOME : string) (routes : list route) :
  let routes' := patchHomeAffix userHomePath BASE_HOME routes in
  metas routes' = metas routes \/
  exists pre m post, metas routes = pre ++ m :: post /\
                     metas routes' = pre ++ assign_affix m :: post.
Proof.
  intros routes'. subst routes'.
  destruct (patchHomeAffix_as_walk userHomePath BASE_HOME routes) as [_ A2].
  rewrite A2, <- (metas_of_walk_forest "" routes).
  apply first_match_walk_one_change.
Qed.

(** C6. [patchHomeAffix] is the depth-first walk in array order over the
    resolved paths: at a node whose resolved path is the home path, a
    declared redirect becomes the new target and the walk goes on, otherwise
    the node gets [affix: true] and the walk ends.  Nothing but metas
    changes, at most one meta changes, and on the example ([/dash]
    redirecting to [/dash/child] over the child [child], home path [/dash])
    the child ends with [affix = true] while the root's [affix] stays
    unset. *)
Theorem patchHomeAffix_first_match_wins
        (userHomePath : option string) (BASE_HOME : string) (routes : list route) :
  let home := initial_homePath userHomePath BASE_HOME in
  let routes' := patchHomeAffix userHomePath BASE_HOME routes in
  shape routes' = shape routes /\
  metas routes' = fst (fst (first_match_walk (walk "" routes) home)) /\
  (metas routes' = metas routes \/
   exists pre m post, metas routes = pre ++ m :: post /\
                      metas routes' = pre ++ assign_affix m :: post) /\
  map (get "affix") (metas (patchHomeAffix (Some "/dash") BASE_HOME [dash_root]))
  = [JUndef; JBool true].
Proof.
  intros home routes'.
  destruct (patchHomeAffix_as_walk userHomePath BASE_HOME routes) as [A1 A2].
  split; [exact A1|]. split; [exact A2|]. split.
  - apply patchHomeAffix_one_change.
  - reflexivity.
Qed.

(** ** The filters *)

Lemma r_meta_prune_route (q : jsval -> bool) (r : route) :
  r_meta (prune_route q r) = r_meta r.
Proof.
  now destruct r.
Qed.

Lemma metas_route_head (r : route) :
  exists tl, metas_route r = r_meta r :: tl.
Proof.
  destruct r; simpl; eauto.
Qed.

Section Filter_pure.

(** A predicate [func] that, on metas accepted by [good], does not raise and
    answers [q]. *)
Variable func : route -> result bool.
Variable q good : jsval -> bool.
Hypothesis func_pure :
  forall r, good (r_meta r) = true -> func r = Ok (q (r_meta r)).

Lemma array_filter_pure (l : list route) :
  Forall (fun r => good (r_meta r) = true) l ->
  array_filter func l = Ok (List.filter (fun r => q (r_meta r)) l).
Proof.
  induction 1 as [|r l Hr _ IH]; simpl; auto.
  rewrite (func_pure r Hr), IH. simpl. reflexivity.
Qed.

Lemma filter_children_pure (cs : list route) :
  Forall (fun r => Forall (fun me => good me = true) (metas_route r) ->
                   filter_route func r = Ok (prune_route q r)) cs ->
  Forall (fun me => good me = true) (metas cs) ->
  filter_children (filter_route func) func cs =
  Ok (List.filter (fun c => q (r_meta c)) (map (prune_route q) cs)).
Proof.
  induction 1 as [|c cs Hc _ IH]; intros Hg; simpl; auto.
  unfold metas in Hg. simpl in Hg. apply Forall_app in Hg. destruct Hg as [Hg1 Hg2].
  rewrite (Hc Hg1). simpl.
  rewrite func_pure.
  2:{ rewrite r_meta_prune_route. destruct (metas_route_head c) as [tl E].
      rewrite E in Hg1. now inversion Hg1. }
  simpl. fold (filter_children (filter_route func) func cs).
  rewrite (IH Hg2). simpl. reflexivity.
Qed.

Lemma filter_route_pure (r : route) :
  Forall (fun me => good me = true) (metas_route r) ->
  filter_route func r = Ok (prune_route q r).
Proof.
  induction r as [i p n pa rd me co | i p n pa rd me co cs IH]
    using route_nested_ind; intros Hg; simpl; auto.
  inversion Hg as [|x tl Hme Hcs]; subst.
  now rewrite (filter_children_pure IH Hcs).
Qed.

Lemma filter_forest_pure (l : list route) :
  Forall (fun me => good me = true) (metas l) ->
  filter_forest func l = Ok (map (prune_route q) l).
Proof.
  induction l as [|r l IH]; intros Hg; simpl; auto.
  unfold metas in Hg. simpl in Hg. apply Forall_app in Hg. destruct Hg as [Hg1 Hg2].
  rewrite (filter_route_pure r Hg1). simpl. rewrite (IH Hg2). reflexivity.
Qed.

(** The descendant pass followed by the top-level pass, as the three modes
    run it. *)
Lemma two_passes_pure (l : list route) :
  Forall (fun me => good me = true) (metas l) ->
  (routes <- filter (Some l) func ;; array_filter func routes) = Ok (prune q l).
Proof.
  intros Hg. unfold filter. rewrite (filter_forest_pure l Hg). simpl.
  apply array_filter_pure.
  clear - Hg. induction l as [|r l IH]; simpl; constructor.
  - rewrite r_meta_prune_route. unfold metas in Hg. simpl in Hg.
    destruct (metas_route_head r) as [tl E]. rewrite E in Hg. now inversion Hg.
  - apply IH. unfold metas in *. simpl in Hg. apply Forall_app in Hg. tauto.
Qed.

End Filter_pure.

Section Prune_facts.

Variable q : jsval -> bool.

Lemma metas_prune_pass (l : list route) :
  Forall (fun me => q me = true) (metas (prune q l)).
Proof.
  assert (N : forall r, q (r_meta r) = true ->
                        Forall (fun me => q me = true) (metas_route (prune_route q r))).
  { induction r as [i p n pa rd me co | i p n pa rd me co cs IH]
      using route_nested_ind; intros Hq; simpl in *.
    - constructor; auto.
    - constructor; auto.
      induction IH as [|c cs Hc _ IHcs]; simpl; auto.
      rewrite r_meta_prune_route.
      destruct (q (r_meta c)) eqn:Hqc; simpl; auto.
      apply Forall_app. split; auto. }
  unfold prune, metas. induction l as [|r l IH]; simpl; auto.
  rewrite r_meta_prune_route.
  destruct (q (r_meta r)) eqn:Hq; simpl; auto.
  apply Forall_app. split; auto.
Qed.

Lemma filter_chains_cons (lbl : string * jsval) (X : list (list (string * jsval))) :
  List.filter (chain_passes q) (map (cons lbl) X) =
  if q (snd lbl) then map (cons lbl) (List.filter (chain_passes q) X) else [].
Proof.
  induction X as [|c X IH]; simpl.
  - now destruct (q (snd lbl)).
  - rewrite IH. destruct (q (snd lbl)); simpl; auto.
    now destruct (chain_passes q c).
Qed.

(** A node is in the pruned forest exactly when it and all its ancestors
    pass. *)
Lemma chains_prune (l : list route) :
  chains (prune q l) = List.filter (chain_passes q) (chains l).
Proof.
  assert (N : forall r,
    (if q (r_meta r) then chains_route (prune_route q r) else []) =
    List.filter (chain_passes q) (chains_route r)).
  { induction r as [i p n pa rd me co | i p n pa rd me co cs IH]
      using route_nested_ind; simpl.
    - destruct (q me); reflexivity.
    - rewrite (filter_chains_cons (n, me)). simpl.
      destruct (q me); simpl; auto. do 2 f_equal.
      induction IH as [|c cs Hc _ IHcs]; simpl; auto.
      rewrite filter_app, <- Hc, <- IHcs, r_meta_prune_route.
      now destruct (q (r_meta c)). }
  unfold prune, chains. induction l as [|r l IH]; simpl; auto.
  rewrite filter_app, <- N, <- IH, r_meta_prune_route.
  now destruct (q (r_meta r)).
Qed.

End Prune_facts.

Section Role_filter.

Variable roleList : list string.

Lemma has_role_In (l : list jsval) (role : string) :
  has_role l role = true <-> In (JStr role) l.
Proof.
  unfold has_role. rewrite existsb_exists. split.
  - intros (v & Hv & E). destruct v; try discriminate.
    apply String.eqb_eq in E. now subst.
  - intros H. exists (JStr role). split; auto. apply String.eqb_refl.
Qed.

Lemma routeFilter_typed (r : route) :
  roles_typed (r_meta r) = true ->
  routeFilter roleList r = Ok (role_passes roleList (r_meta r)).
Proof.
  unfold roles_typed, routeFilter, role_passes.
  destruct (get "roles" (or_empty (r_meta r))) as [| | | | |l|]; try discriminate;
    intros _; simpl; auto.
  induction roleList as [|role rl IH]; simpl; auto.
  fold (has_role l role). destruct (has_role l role); simpl; auto.
Qed.

Lemma role_passes_iff (me : jsval) :
  roles_typed me = true ->
  (role_passes roleList me = true <->
   get "roles" (or_empty me) = JUndef \/
   exists l role, get "roles" (or_empty me) = JArr l /\
                  In role roleList /\ In (JStr role) l).
Proof.
  unfold roles_typed, role_passes.
  destruct (get "roles" (or_empty me)) as [| | | | |l|]; try discriminate; intros _.
  - split; auto.
  - rewrite existsb_exists. split.
    + intros (role & Hin & Hr). right. exists l, role.
      apply has_role_In in Hr. auto.
    + intros [H|(l' & role & E & Hin & Hr)]; [discriminate|].
      injection E as <-. exists role. split; auto. now apply has_role_In.
Qed.

(** C3. On a forest whose [meta.roles] are absent or arrays, [routeFilter]
    passes a node exactly when its roles are absent or share an element
    with the role list; after the descendant pass and the top-level pass a
    node is present exactly when it and all its ancestors pass: every node
    that is present passes, a node that fails is absent, and with it its
    whole subtree. *)
Theorem role_filter_sound (F : list route) :
  Forall (fun me => roles_typed me = true) (metas F) ->
  exists F',
    (routes <- filter (Some F) (routeFilter roleList) ;;
     array_filter (routeFilter roleList) routes) = Ok F' /\
    (forall r, roles_typed (r_meta r) = true ->
       exists b, routeFilter roleList r = Ok b /\
         (b = true <->
          get "roles" (or_empty (r_meta r)) = JUndef \/
          exists l role, get "roles" (or_empty (r_meta r)) = JArr l /\
                         In role roleList /\ In (JStr role) l)) /\
    chains F' = List.filter (chain_passes (role_passes roleList)) (chains F) /\
    Forall (fun me => role_passes roleList me = true) (metas F').
Proof.
  intros Hty. exists (prune (role_passes roleList) F).
  split; [|split; [|split]].
  - apply two_passes_pure with (good := roles_typed); auto.
    intros r. apply routeFilter_typed.
  - intros r Hr. exists (role_passes roleList (r_meta r)). split.
    + now apply routeFilter_typed.
    + now apply role_passes_iff.
  - apply chains_prune.
  - apply metas_prune_pass.
Qed.

End Role_filter.

Lemma role_filter_sound_witness :
  exists F',
    (routes <- filter (Some admin_child) (routeFilter ["user"]) ;;
     array_filter (routeFilter ["user"]) routes) = Ok F' /\
    chains F' = [[("Dashboard", JUndef)]].
Proof.
  destruct (role_filter_sound ["user"] admin_child) as (F' & H1 & _ & H2 & _).
  - repeat constructor.
  - exists F'. split; auto.
Defined.

(** C3 as stated fails on forests outside the declared type of [roles].
    A [roles] kept as text passes a role that only occurs inside one of
    its names; a [roles] that decoded to a number makes the filter raise
    instead of answering; and a record delivered with the roles [["0"]],
    which [parseRouteRoles] decodes to the number 0, is returned to a
    principal whose only role is [guest]. *)
Lemma role_filter_needs_typed_roles :
  (routeFilter ["admin"] text_roles_route = Ok true /\
   get "roles" (r_meta text_roles_route) = JStr "administrator,auditor" /\
   ~ In "admin" ["administrator"; "auditor"]) /\
  (routes <- filter (Some [mkRoute 1 0 "Five" "/five" None
                                   (JObj [("roles", JNum 5)]) None None])
                    (routeFilter ["5"]) ;;
   array_filter (routeFilter ["5"]) routes) = Raise TypeError /\
  (option_map (map r_name)
     (match snd (buildRoutesAction JSON_parse_sample_zero ROUTE_MAP_sample
                   ["guest"] None "/dashboard/analysis"
                   flatMultiLevelRoutes_sample transformObjToRoute_sample
                   ERROR_LOG_ROUTE_sample PAGE_NOT_FOUND_ROUTE_sample
                   (Ok zero_roles_records) (Ok []) (Ok []) 0 ROLE
                   initial_state) with
      | Ok routes => Some routes
      | Raise _ => None
      end)
   = Some ["Zero"; "ErrorLog"] /\
   has_role [JStr "0"] "guest" = false).
Proof.
  split; [|split].
  - split; [reflexivity|]. split; [reflexivity|].
    intros [H|[H|[]]]; discriminate.
  - reflexivity.
  - split; reflexivity.
Qed.

(** ** The menu sort *)

Lemma sort_insert_perm (a : Menu) (l : list Menu) :
  Permutation (sort_insert a l) (a :: l).
Proof.
  induction l as [|b l IH]; simpl; auto.
  destruct (orderNo a <=? orderNo b); auto.
  rewrite IH. apply perm_swap.
Qed.

Lemma sort_by_orderNo_perm (l : list Menu) :
  Permutation (sort_by_orderNo l) l.
Proof.
  induction l as [|a l IH]; simpl; auto.
  rewrite sort_insert_perm. now constructor.
Qed.





(** ** The converted menu *)






Lemma menu_metas_toMenu (fillPath : bool) (r : route) :
  forall parent,
    Permutation (menu_metas_node (toMenu fillPath parent r)) (metas_route r).
Proof.
  induction r as [i p n pa rd me co | i p n pa rd me co cs IH]
    using route_nested_ind; intros parent; [reflexivity|].
  cbn [toMenu option_map menu_metas_node metas_route].
  constructor.
  match goal with
  | |- context [map (toMenu fillPath ?q) cs] => generalize q
  end.
  intros q. rewrite (Permutation_flat_map _ (sort_by_orderNo_perm _)).
  induction IH as [|c cs Hc _ IHcs]; simpl; auto.
  apply Permutation_app; auto.
Qed.

Lemma menu_metas_transformRouteToMenu (routes : list route) (fillPath : bool) :
  Permutation (menu_metas (transformRouteToMenu routes fillPath)) (metas routes).
Proof.
  unfold menu_metas, transformRouteToMenu, metas.
  rewrite (Permutation_flat_map _ (sort_by_orderNo_perm _)).
  induction routes as [|r l IH]; simpl; auto.
  apply Permutation_app; auto. apply menu_metas_toMenu.
Qed.

(** ** [Object.assign] and the ignore flag *)

Lemma lookup_set_field_other (k k' : string) (v : jsval) (fs : list (string * jsval)) :
  String.eqb k k' = false ->
  lookup_field k (set_field k' v fs) = lookup_field k fs.
Proof.
  intros Hne. induction fs as [|[k0 v0] fs IH]; simpl.
  - now rewrite Hne.
  - destruct (String.eqb k' k0) eqn:E; simpl.
    + apply String.eqb_eq in E. subst k0. now rewrite Hne.
    + now rewrite IH.
Qed.

Lemma ignoreRoute_is_no_index (n : nat) :
  String.eqb "ignoreRoute" (string_of_nat n) = false.
Proof.
  unfold string_of_nat, NilZero.string_of_uint.
  destruct (Nat.to_uint n); reflexivity.
Qed.

Lemma lookup_ignoreRoute_indexed (n : nat) (l : list jsval) :
  lookup_field "ignoreRoute" (index_from n l) = JUndef.
Proof.
  revert n; induction l as [|a l IH]; intros n; auto.
  cbn [index_from lookup_field].
  now rewrite ignoreRoute_is_no_index, IH.
Qed.

Lemma ignore_passes_assign_affix (m : jsval) :
  ignore_passes (assign_affix m) = ignore_passes m.
Proof.
  unfold ignore_passes, assign_affix, or_empty.
  cbn [truthy get].
  rewrite lookup_set_field_other by reflexivity.
  destruct m as [| |b|z|s|l|fs]; cbn [own_props truthy get lookup_field]; auto.
  - now destruct b.
  - now destruct (negb (z =? 0)).
  - rewrite lookup_ignoreRoute_indexed. now destruct (negb (String.eqb s "")).
  - now rewrite lookup_ignoreRoute_indexed.
Qed.

Lemma patchHomeAffix_keeps_ignore
      (userHomePath : option string) (BASE_HOME : string) (routes : list route) :
  Forall (fun me => ignore_passes me = true) (metas routes) ->
  Forall (fun me => ignore_passes me = true)
         (metas (patchHomeAffix userHomePath BASE_HOME routes)).
Proof.
  intros H.
  destruct (patchHomeAffix_one_change userHomePath BASE_HOME routes)
    as [E|(pre & m & post & E1 & E2)].
  - now rewrite E.
  - rewrite E2. rewrite E1 in H. apply Forall_app in H. destruct H as [H1 H2].
    inversion H2; subst. apply Forall_app. split; auto.
    constructor; auto. now rewrite ignore_passes_assign_affix.
Qed.

Lemma metas_app (l1 l2 : list route) : metas (l1 ++ l2) = metas l1 ++ metas l2.
Proof.
  unfold metas. apply flat_map_app.
Qed.

Lemma routeRemoveIgnoreFilter_pure (r : route) :
  routeRemoveIgnoreFilter r = Ok (ignore_passes (r_meta r)).
Proof.
  reflexivity.
Qed.

Lemma ignore_passes_two (l : list route) :
  (routes <- filter (Some l) routeRemoveIgnoreFilter ;;
   array_filter routeRemoveIgnoreFilter routes) = Ok (prune ignore_passes l).
Proof.
  apply two_passes_pure with (good := fun _ => true).
  - intros r _. apply routeRemoveIgnoreFilter_pure.
  - apply Forall_forall. auto.
Qed.

Lemma bind_assoc (A B C : Type) (m : result A) (f : A -> result B)
      (g : B -> result C) :
  (x <- m ;; y <- f x ;; g y) = (y <- (x <- m ;; f x) ;; g y).
Proof.
  now destruct m.
Qed.

Lemma ignore_passes_then (A : Type) (l : list route)
      (k : list route -> result A) :
  (routes <- filter (Some l) routeRemoveIgnoreFilter ;;
   routes' <- array_filter routeRemoveIgnoreFilter routes ;;
   k routes') = k (prune ignore_passes l).
Proof.
  now rewrite bind_assoc, ignore_passes_two.
Qed.

(** ** The pass *)

Section Pass.

Variable JSON_parse : string -> option jsval.
Variable ROUTE_MAP : string -> option string.
Variable roleList : list string.
Variable userHomePath : option string.
Variable BASE_HOME : string.
Variable flatMultiLevelRoutes : list route -> list route.
Variable transformObjToRoute : list route -> list route.
Variable ERROR_LOG_ROUTE : route.
Variable PAGE_NOT_FOUND_ROUTE : route.
Variable getBackActiveMenuList : result (list BackendMenuRecord).
Variable getPermCode : result (list jsval).
Variable getMenuList : result (list route).
Variable now : Z.

Local Abbreviation branch :=
  (mode_branch roleList flatMultiLevelRoutes transformObjToRoute
               PAGE_NOT_FOUND_ROUTE getPermCode getMenuList now).
Local Abbreviation from :=
  (buildRoutes_from roleList userHomePath BASE_HOME
                    flatMultiLevelRoutes transformObjToRoute
                    ERROR_LOG_ROUTE PAGE_NOT_FOUND_ROUTE
                    getPermCode getMenuList now).
Local Abbreviation finish routes :=
  (patchHomeAffix userHomePath BASE_HOME (routes ++ [ERROR_LOG_ROUTE])).

Lemma role_passes_two (F : list route) :
  Forall (fun me => roles_typed me = true) (metas F) ->
  (routes <- filter (Some F) (routeFilter roleList) ;;
   array_filter (routeFilter roleList) routes)
  = Ok (prune (role_passes roleList) F).
Proof.
  intros Hty. apply two_passes_pure with (good := roles_typed); auto.
  intros r. apply routeFilter_typed.
Qed.

Lemma branch_ROLE (F : list route) (s : PermissionState) :
  Forall (fun me => roles_typed me = true) (metas F) ->
  branch ROLE (Some F) s =
  (s, Ok (flatMultiLevelRoutes (prune (role_passes roleList) F))).
Proof.
  intros Hty. unfold mode_branch. f_equal.
  pose proof (role_passes_two F Hty) as E. unfold filter in *.
  destruct (filter_forest (routeFilter roleList) F) as [x|e]; simpl in *;
    [|discriminate].
  now rewrite E.
Qed.

Lemma branch_ROUTE_MAPPING_returns
      (F visible : list route) (s : PermissionState) :
  (routes <- filter (Some F) (routeFilter roleList) ;;
   array_filter (routeFilter roleList) routes) = Ok visible ->
  branch ROUTE_MAPPING (Some F) s =
  (setFrontMenuList
     (sort_by_orderNo (transformRouteToMenu visible true)) s,
   Ok (flatMultiLevelRoutes (prune ignore_passes visible))).
Proof.
  intros H. unfold mode_branch. rewrite H, ignore_passes_two. reflexivity.
Qed.

Lemma branch_ROUTE_MAPPING_raises
      (F : list route) (s : PermissionState) (e : js_error) :
  (routes <- filter (Some F) (routeFilter roleList) ;;
   array_filter (routeFilter roleList) routes) = Raise e ->
  branch ROUTE_MAPPING (Some F) s = (s, Raise e).
Proof.
  intros H. unfold mode_branch. now rewrite H.
Qed.

(** C4. In ROUTE_MAPPING mode, for every forest and role list: when the
    role filter raises, nothing is stored and nothing returned; when it
    returns the role-filtered routes, the stored front menu is their
    conversion (the same menus, in sorted order), taken before any ignore
    pruning, so that it holds every role-filtered node, ignored or not; the
    forest handed to flattening is the role-filtered forest after the two
    ignore passes and holds no node with a set [ignoreRoute]; when the
    flattening helper and the error-log route bring none in, neither does
    the returned forest.  A node with [ignoreRoute = true] does appear in
    the stored front menu. *)
Theorem route_mapping_menu_precedes_ignore_pruning
        (F : list route) (s : PermissionState) :
  (forall X, Forall (fun me => ignore_passes me = true) (metas X) ->
             Forall (fun me => ignore_passes me = true)
                    (metas (flatMultiLevelRoutes X))) ->
  Forall (fun me => ignore_passes me = true) (metas_route ERROR_LOG_ROUTE) ->
  match (routes <- filter (Some F) (routeFilter roleList) ;;
         array_filter (routeFilter roleList) routes) with
  | Raise e => from ROUTE_MAPPING (Some F) s = (s, Raise e)
  | Ok visible =>
      let registered := prune ignore_passes visible in
      exists stored,
        from ROUTE_MAPPING (Some F) s =
          (setFrontMenuList stored s,
           Ok (finish (flatMultiLevelRoutes registered))) /\
        Permutation stored (transformRouteToMenu visible true) /\
        Permutation (menu_metas stored) (metas visible) /\
        Forall (fun me => ignore_passes me = true) (metas registered) /\
        Forall (fun me => ignore_passes me = true)
               (metas (finish (flatMultiLevelRoutes registered)))
  end /\
  In meta_ignored
     (menu_metas (frontMenuList
                    (fst (from ROUTE_MAPPING (Some with_ignored_child) s)))).
Proof.
  intros Hflat Herr. split; [|simpl; auto].
  destruct (_ <- filter (Some F) _ ;; _) as [visible|e] eqn:Hrole.
  - assert (Hreg : Forall (fun me => ignore_passes me = true)
                          (metas (prune ignore_passes visible)))
      by apply metas_prune_pass.
    cbv zeta. eexists. split; [|split; [|split; [|split]]].
    + unfold buildRoutes_from.
      rewrite (branch_ROUTE_MAPPING_returns F s Hrole). reflexivity.
    + apply sort_by_orderNo_perm.
    + unfold menu_metas at 1.
      rewrite (Permutation_flat_map _ (sort_by_orderNo_perm _)).
      apply menu_metas_transformRouteToMenu.
    + exact Hreg.
    + apply patchHomeAffix_keeps_ignore.
      rewrite metas_app. apply Forall_app. split; auto.
      unfold metas. simpl. now rewrite app_nil_r.
  - unfold buildRoutes_from.
    now rewrite (branch_ROUTE_MAPPING_raises F s Hrole).
Qed.


(** C7, as the code has it. In ROLE mode the role filter (descendant pass,
    then top-level pass) runs on the route list fetched from the backend
    and built by [handleBackMenuTree]; the result goes through
    [flatMultiLevelRoutes], then the error-log route is appended and the
    home route patched. *)
Theorem role_mode_filters_backend_routes (F : list route) (s : PermissionState) :
  fetch_backRouteList JSON_parse ROUTE_MAP getBackActiveMenuList = Some F ->
  Forall (fun me => roles_typed me = true) (metas F) ->
  buildRoutesAction JSON_parse ROUTE_MAP roleList userHomePath BASE_HOME
                    flatMultiLevelRoutes transformObjToRoute ERROR_LOG_ROUTE
                    PAGE_NOT_FOUND_ROUTE getBackActiveMenuList getPermCode
                    getMenuList now ROLE s =
  (s, Ok (finish (flatMultiLevelRoutes (prune (role_passes roleList) F)))).
Proof.
  intros Hfetch Hty. unfold buildRoutesAction. rewrite Hfetch.
  unfold buildRoutes_from. now rewrite (branch_ROLE F s Hty).
Qed.

End Pass.

Lemma route_mapping_menu_precedes_ignore_pruning_witness :
  In meta_ignored
     (menu_metas
        (frontMenuList
           (fst (buildRoutes_from ["user"] None "/dashboard/analysis"
                   flatMultiLevelRoutes_sample transformObjToRoute_sample
                   ERROR_LOG_ROUTE_sample PAGE_NOT_FOUND_ROUTE_sample
                   (Ok []) (Ok []) 0 ROUTE_MAPPING
                   (Some with_ignored_child) initial_state)))) /\
  exists stored,
    buildRoutes_from ["user"] None "/dashboard/analysis"
      flatMultiLevelRoutes_sample transformObjToRoute_sample
      ERROR_LOG_ROUTE_sample PAGE_NOT_FOUND_ROUTE_sample
      (Ok []) (Ok []) 0 ROUTE_MAPPING (Some with_ignored_child) initial_state
    = (setFrontMenuList stored initial_state,
       Ok (patchHomeAffix None "/dashboard/analysis"
             (flatMultiLevelRoutes_sample
                (prune ignore_passes with_ignored_child)
              ++ [ERROR_LOG_ROUTE_sample]))) /\
    Forall (fun me => ignore_passes me = true)
           (metas (patchHomeAffix None "/dashboard/analysis"
                     (flatMultiLevelRoutes_sample
                        (prune ignore_passes with_ignored_child)
                      ++ [ERROR_LOG_ROUTE_sample]))).
Proof.
  pose proof (route_mapping_menu_precedes_ignore_pruning
                ["user"] None "/dashboard/analysis"
                flatMultiLevelRoutes_sample transformObjToRoute_sample
                ERROR_LOG_ROUTE_sample PAGE_NOT_FOUND_ROUTE_sample
                (Ok []) (Ok []) 0 with_ignored_child initial_state) as H.
  destruct H as (H1 & H2).
  - intros X HX. exact HX.
  - repeat constructor.
  - split; [exact H2|].
    change (routes <- filter (Some with_ignored_child) (routeFilter ["user"]) ;;
            array_filter (routeFilter ["user"]) routes)
      with (Ok (A := list route) with_ignored_child) in H1.
    cbv beta iota zeta in H1.
    destruct H1 as (stored & E & _ & _ & _ & Hfin).
    exists stored. split; [exact E | exact Hfin].
Defined.


Lemma role_mode_filters_backend_routes_witness :
  exists F,
    fetch_backRouteList JSON_parse_sample ROUTE_MAP_sample (Ok admin_records)
    = Some F /\
    buildRoutesAction_sample ["user"] (Ok admin_records) ROLE initial_state =
    (initial_state,
     Ok (patchHomeAffix None "/dashboard/analysis"
           (flatMultiLevelRoutes_sample (prune (role_passes ["user"]) F)
            ++ [ERROR_LOG_ROUTE_sample]))).
Proof.
  eexists. split; [reflexivity|].
  apply role_mode_filters_backend_routes; [reflexivity|].
  vm_compute. repeat constructor.
Defined.

(** C7 as stated fails: with one and the same configuration, the routes of
    the ROLE mode change with the list the backend delivers, so they are
    not the filtered static declarations. *)
Lemma role_mode_follows_backend_list :
  ~ exists staticRoutes,
      forall getBackActiveMenuList,
        snd (buildRoutesAction_sample ["user"] getBackActiveMenuList ROLE
                                      initial_state)
        = Ok (role_mode_on_static ["user"] staticRoutes).
Proof.
  intros [staticRoutes H].
  pose proof (H (Ok [])) as H0.
  pose proof (H (Ok admin_records)) as H1.
  rewrite <- H1 in H0. vm_compute in H0. discriminate.
Qed.

(** ** Failures of the fetch *)

Section Failed_fetch.

Variable JSON_parse : string -> option jsval.
Variable ROUTE_MAP : string -> option string.
Variable roleList : list string.
Variable userHomePath : option string.
Variable BASE_HOME : string.
Variable flatMultiLevelRoutes : list route -> list route.
Variable transformObjToRoute : list route -> list route.
Variable ERROR_LOG_ROUTE : route.
Variable PAGE_NOT_FOUND_ROUTE : route.
Variable getPermCode : result (list jsval).
Variable getMenuList : result (list route).
Variable now : Z.

Local Abbreviation run getBackActiveMenuList :=
  (buildRoutesAction JSON_parse ROUTE_MAP roleList userHomePath BASE_HOME
                     flatMultiLevelRoutes transformObjToRoute ERROR_LOG_ROUTE
                     PAGE_NOT_FOUND_ROUTE getBackActiveMenuList getPermCode
                     getMenuList now).

(** C1, the failing inputs. When the request for the backend menu list is
    rejected, [backRouteList] stays undefined and the pass raises a
    [TypeError] in ROLE mode and in ROUTE_MAPPING mode, where the store is
    left as it was; in BACK mode, whose own list starts as [[]], the pass
    returns.  The same happens when the list holds an orphan record; and a
    [roles] value that decodes to a number makes [routeFilter] raise. *)
Theorem failed_fetch_raises_in_role_modes (e : js_error) (s : PermissionState) :
  run (Raise e) ROLE s = (s, Raise TypeError) /\
  run (Raise e) ROUTE_MAPPING s = (s, Raise TypeError) /\
  (exists routes, snd (run (Raise e) BACK s) = Ok routes) /\
  snd (buildRoutesAction_sample ["user"] (Ok with_orphan) ROLE initial_state)
  = Raise TypeError /\
  snd (buildRoutesAction_sample ["user"] (Ok roles_not_a_list) ROLE initial_state)
  = Raise TypeError.
Proof.
  split; [reflexivity|]. split; [reflexivity|]. split; [|split; reflexivity].
  unfold buildRoutesAction, buildRoutes_from, mode_branch.
  destruct getPermCode as [codes|e']; cbv beta iota zeta;
    rewrite ignore_passes_then; simpl; eauto.
Qed.

End Failed_fetch.

(** ** [resetState] *)

(** C9, what the code does. [resetState] resets the dynamic-route flag, the
    permission codes, the back menu and the build time to their initial
    values and leaves the front menu as it is: on a store whose front menu
    is not empty the result is not the initial state. *)
Theorem resetState_keeps_front_menu (s : PermissionState) :
  isDynamicAddedRoute (resetState s) = false /\
  permCodeList (resetState s) = [] /\
  backMenuList (resetState s) = [] /\
  lastBuildMenuTime (resetState s) = 0 /\
  frontMenuList (resetState s) = frontMenuList s /\
  frontMenuList (resetState used_state) = [mkMenu "Front" "/front" JUndef None] /\
  resetState used_state <> initial_state.
Proof.
  repeat split. discriminate.
Qed.

(** ** The pass on concrete input *)

(** [small_tree] read as a forest: the root, then its children in input
    order, each followed by its own children. *)
Example small_tree_ids :
  option_map ids
    (match handleBackMenuTree JSON_parse_sample small_tree with
     | Ok st => Some (read_forest st)
     | Raise _ => None
     end)
  = Some [1; 3; 4; 2].
Proof. reflexivity. Qed.

(** A root over a child for [admin]: for the role [user] the child goes and
    the root stays, with no children; for [admin] the child stays. *)
Example admin_child_for_user :
  option_map (map (fun r => (r_name r, option_map (map r_name) (r_children r))))
    (match snd (buildRoutesAction_sample ["user"] (Ok admin_records) ROLE
                                         initial_state) with
     | Ok routes => Some routes
     | Raise _ => None
     end)
  = Some [("Dashboard", Some []); ("ErrorLog", Some ["ErrorLogList"])].
Proof. reflexivity. Qed.

Example admin_child_for_admin :
  option_map (map (fun r => (r_name r, option_map (map r_name) (r_children r))))
    (match snd (buildRoutesAction_sample ["admin"] (Ok admin_records) ROLE
                                         initial_state) with
     | Ok routes => Some routes
     | Raise _ => None
     end)
  = Some [("Dashboard", Some ["Admin"]); ("ErrorLog", Some ["ErrorLogList"])].
Proof. reflexivity. Qed.

(** In BACK mode a rejected request for the menu list leaves the reserved
    routes only. *)
Example back_mode_degrades :
  option_map (map r_name)
    (match snd (buildRoutesAction JSON_parse_sample ROUTE_MAP_sample ["user"]
                  None "/dashboard/analysis" flatMultiLevelRoutes_sample
                  transformObjToRoute_sample ERROR_LOG_ROUTE_sample
                  PAGE_NOT_FOUND_ROUTE_sample (Raise FetchError)
                  (Ok [JStr "1000"]) (Raise FetchError) 0 BACK initial_state) with
     | Ok routes => Some routes
     | Raise _ => None
     end)
  = Some ["PageNotFound"; "ErrorLog"].
Proof. reflexivity. Qed.

(* ================================================================== *)
(** * Further properties of the store *)

(** ** The tree builder *)

Section Builder_more.

Variable JSON_parse : string -> option jsval.
Variable menuList : list BackendMenuRecord.

Lemma find_parent_none_iff (pid : Z) :
  find_parent menuList pid = None <->
  existsb (fun r' => rec_id r' =? pid) menuList = false.
Proof.
  unfold find_parent. induction menuList as [|a l IH]; simpl; [tauto|].
  destruct (rec_id a =? pid); simpl.
  - split; discriminate.
  - destruct (find_index (fun r => rec_id r =? pid) l); simpl.
    + split; [discriminate|]. intros H. apply IH in H. discriminate.
    + split; auto. intros _. now apply IH.
Qed.

Lemma orphan_free_iff_consistent :
  existsb (is_orphan menuList) (seq 0 (List.length menuList)) =
  negb (consistent_parents menuList).
Proof.
  unfold consistent_parents.
  assert (G : forall l k, (forall j r, nth_error l j = Some r ->
                                       nth_error menuList (k + j) = Some r) ->
    existsb (is_orphan menuList) (seq k (List.length l)) =
    negb (forallb (fun r => (rec_pid r =? 0) ||
                            existsb (fun r' => rec_id r' =? rec_pid r) menuList) l)).
  { induction l as [|a l IH]; intros k Hk; simpl; auto.
    rewrite (IH (S k)).
    2:{ intros j r Hj. replace (S k + j)%nat with (k + S j)%nat by lia.
        now apply Hk. }
    rewrite negb_andb. f_equal.
    unfold is_orphan.
    rewrite (pid_at_nth menuList k (r := a)).
    2:{ specialize (Hk 0%nat a eq_refl). now rewrite Nat.add_0_r in Hk. }
    destruct (rec_pid a =? 0); simpl; auto.
    destruct (find_parent menuList (rec_pid a)) as [p|] eqn:Hp.
    - destruct (existsb _ menuList) eqn:E; auto.
      apply find_parent_none_iff in E. congruence.
    - apply find_parent_none_iff in Hp. now rewrite Hp. }
  apply G. intros j r Hj. exact Hj.
Qed.

(** X1. [handleBackMenuTree] returns exactly when every nonzero [pid] is
    the [id] of some record of the list; otherwise it raises, and what it
    raises is a [TypeError]: a meta that fails to decode never makes it
    raise. *)
Theorem handleBackMenuTree_returns_iff_consistent :
  match handleBackMenuTree JSON_parse menuList with
  | Ok st => consistent_parents menuList = true /\
             List.length (fst st) = List.length menuList
  | Raise e => e = TypeError /\ consistent_parents menuList = false
  end.
Proof.
  rewrite handleBackMenuTree_closed, orphan_free_iff_consistent.
  destruct (consistent_parents menuList); simpl; auto.
  split; auto. apply length_heap_at.
Qed.

(** X2. When [handleBackMenuTree] returns, every record sits at its input
    position with its [id], [pid], [name], [path] and [redirect] as
    delivered; a meta that is falsy (absent, [null], the empty string) is
    not parsed and stays, and a meta that decodes is replaced by the
    decoded value. *)
Theorem handleBackMenuTree_keeps_records (st : store) (j : nat)
        (r : BackendMenuRecord) :
  handleBackMenuTree JSON_parse menuList = Ok st ->
  nth_error menuList j = Some r ->
  exists o,
    nth_error (fst st) j = Some o /\
    m_id o = rec_id r /\ m_pid o = rec_pid r /\ m_name o = rec_name r /\
    m_path o = rec_path r /\ m_redirect o = rec_redirect r /\
    (truthy (rec_meta r) = false -> m_meta o = rec_meta r) /\
    (forall v, truthy (rec_meta r) = true ->
               JSON_parse (ToString (rec_meta r)) = Some v -> m_meta o = v).
Proof.
  rewrite handleBackMenuTree_closed.
  destruct (existsb _ _); [discriminate|]. intros [= <-] Hj. simpl.
  rewrite nth_error_heap_at, Hj. simpl. eexists. split; [reflexivity|].
  simpl. repeat split; auto.
  - intros Hf. assert (Hlt : (j < List.length menuList)%nat)
      by (apply nth_error_Some; congruence).
    apply Nat.ltb_lt in Hlt. rewrite Hlt. unfold decode_value. now rewrite Hf.
  - intros v Ht Hv. assert (Hlt : (j < List.length menuList)%nat)
      by (apply nth_error_Some; congruence).
    apply Nat.ltb_lt in Hlt. rewrite Hlt. unfold decode_value.
    now rewrite Ht, Hv.
Qed.

Lemma find_index_first (A : Type) (f : A -> bool) (l : list A) (p : nat) (a : A) :
  nth_error l p = Some a -> f a = true ->
  (forall j b, (j < p)%nat -> nth_error l j = Some b -> f b = false) ->
  find_index f l = Some p.
Proof.
  revert p; induction l as [|x l IH]; intros [|p]; simpl; try discriminate.
  - intros [= ->] Fa _. now rewrite Fa.
  - intros Hp Fa Hlt.
    rewrite (Hlt 0%nat x) by (auto; lia).
    rewrite (IH p); auto.
    intros j b Hj Hb. apply (Hlt (S j) b); auto. lia.
Qed.

(** X3. When [handleBackMenuTree] returns, the record at [j] is among the
    children of the record at [i] exactly when its [pid] is not 0 and [i]
    is the first position of the list whose [id] equals that [pid]: with
    several records of one id, all children go to the first of them.  The
    children of a node are in input order, without repetition. *)
Theorem handleBackMenuTree_children_of_first_match (st : store) (i j : nat) :
  handleBackMenuTree JSON_parse menuList = Ok st ->
  (In j (children_refs (fst st) i) <->
   exists rj ri,
     nth_error menuList j = Some rj /\ nth_error menuList i = Some ri /\
     rec_pid rj <> 0 /\ rec_id ri = rec_pid rj /\
     forall i' r', (i' < i)%nat -> nth_error menuList i' = Some r' ->
                   rec_id r' <> rec_pid rj) /\
  StronglySorted lt (children_refs (fst st) i).
Proof.
  rewrite handleBackMenuTree_closed.
  destruct (existsb _ _); [discriminate|]. intros [= <-]. simpl. split.
  - rewrite in_kids. split.
    + intros H. pose proof (child_lt menuList i j H) as Hj.
      apply is_child_of_parent in H. destruct H as [Hnz Hp].
      destruct (nth_error menuList j) as [rj|] eqn:Ej.
      2:{ apply nth_error_None in Ej. lia. }
      rewrite (pid_at_nth menuList j Ej) in *.
      destruct (find_index_Some _ _ Hp) as (ri & Hi & Fi & Hlt).
      exists rj, ri. repeat split; auto.
      * now apply Z.eqb_eq.
      * intros i' r' Hi' Hr' E. apply (Hlt i' r') in Hr'; auto.
        apply Z.eqb_neq in Hr'. contradiction.
    + intros (rj & ri & Ej & Ei & Hnz & Hid & Hfirst).
      unfold is_child_of. rewrite (pid_at_nth menuList j Ej).
      apply Z.eqb_neq in Hnz. rewrite Hnz. simpl.
      unfold find_parent.
      rewrite (@find_index_first _ (fun r => rec_id r =? rec_pid rj)
                                 menuList i ri Ei).
      * apply Nat.eqb_refl.
      * now apply Z.eqb_eq.
      * intros i' r' Hi' Hr'. apply Z.eqb_neq. eauto.
  - rewrite children_refs_heap_at. unfold kids_upto.
    generalize 0%nat as s. generalize (List.length menuList) as m.
    induction m as [|m IH]; intros s; simpl; [constructor|].
    destruct (is_child_of menuList i s); auto.
    constructor; auto.
    apply Forall_forall. intros x Hx. apply filter_In in Hx.
    destruct Hx as [Hx _]. apply in_seq in Hx. lia.
Qed.

Lemma reachable_depth (j : nat) :
  let n := List.length menuList in
  reachable (heap_at JSON_parse menuList n n, roots_upto menuList n) j ->
  exists d, depth_of menuList d j.
Proof.
  intros n. induction 1 as [r Hr | i j Hi (d & Hd) Hj].
  - simpl in Hr. unfold roots_upto in Hr. apply filter_In in Hr.
    destruct Hr as [Hin Hz]. apply in_seq in Hin. apply Z.eqb_eq in Hz.
    exists 0%nat. constructor; auto. lia.
  - simpl in Hj. apply in_kids, is_child_of_parent in Hj. destruct Hj.
    exists (S d). econstructor; eauto.
Qed.

Lemma depth_reachable (d j : nat) :
  let n := List.length menuList in
  depth_of menuList d j ->
  reachable (heap_at JSON_parse menuList n n, roots_upto menuList n) j.
Proof.
  intros n. induction 1 as [j Hj Hz | d j p Hnz Hp Hd IH].
  - apply reach_root. simpl. unfold roots_upto. apply filter_In.
    split; [apply in_seq; lia|]. unfold is_root. now apply Z.eqb_eq.
  - apply reach_child with (i := p); auto. simpl. apply in_kids.
    unfold is_child_of. rewrite Hp, Nat.eqb_refl.
    apply Z.eqb_neq in Hnz. now rewrite Hnz.
Qed.

(** X4. When [handleBackMenuTree] returns, a record is in the returned
    forest exactly when following parent ids from it ends at a record with
    [pid = 0], and then it lies less than [length menuList] levels deep:
    records on a parent cycle are dropped without an error, and the forest
    holds no cycle. *)
Theorem handleBackMenuTree_drops_cycles (st : store) (j : nat) :
  handleBackMenuTree JSON_parse menuList = Ok st ->
  (reachable st j <-> exists d, depth_of menuList d j) /\
  (forall d, depth_of menuList d j -> (d < List.length menuList)%nat).
Proof.
  rewrite handleBackMenuTree_closed.
  destruct (existsb _ _); [discriminate|]. intros [= <-]. split.
  - split.
    + apply reachable_depth.
    + intros (d & Hd). now apply depth_reachable with (d := d).
  - intros d. apply depth_of_bound.
Qed.

End Builder_more.

Lemma handleBackMenuTree_keeps_records_witness :
  exists o, nth_error
              (match handleBackMenuTree JSON_parse_sample decoded_meta_records with
               | Ok st => fst st
               | Raise _ => []
               end) 0 = Some o /\
            m_name o = "Dashboard" /\
            m_meta o = JObj [("roles", JArr [JStr "admin"])].
Proof.
  destruct (@handleBackMenuTree_keeps_records JSON_parse_sample
              decoded_meta_records _ 0
              (mkRecord 1 0 "Dashboard" "/dash" None (JStr text_roles_admin))
              eq_refl eq_refl)
    as (o & Ho & _ & _ & Hn & _ & _ & _ & Hv).
  exists o. split; [exact Ho|]. split; [exact Hn|]. apply Hv; reflexivity.
Defined.

Lemma handleBackMenuTree_children_of_first_match_witness :
  In 2%nat (children_refs
              (match handleBackMenuTree JSON_parse_sample twin_ids with
               | Ok st => fst st
               | Raise _ => []
               end) 0).
Proof.
  apply (@handleBackMenuTree_children_of_first_match JSON_parse_sample
           twin_ids _ 0 2 eq_refl).
  exists (mkRecord 2 1 "Child" "child" None JUndef),
         (mkRecord 1 0 "One" "/one" None JUndef).
  repeat split; try reflexivity; try discriminate.
  intros i' r' Hi'. lia.
Defined.

Lemma handleBackMenuTree_drops_cycles_witness :
  reachable (match handleBackMenuTree JSON_parse_sample small_tree with
             | Ok st => st
             | Raise _ => ([], [])
             end) 2%nat.
Proof.
  apply (@handleBackMenuTree_drops_cycles JSON_parse_sample small_tree _ 2
                                          eq_refl).
  exists 2%nat.
  apply depth_child with (p := 0%nat); [discriminate | reflexivity |].
  apply depth_child with (p := 1%nat); [discriminate | reflexivity |].
  apply depth_root; [simpl; lia | reflexivity].
Defined.

(** ** The fetch of the backend routes *)

Section Fetch_more.

Variable JSON_parse : string -> option jsval.
Variable ROUTE_MAP : string -> option string.

(** X5. After the [try] block, [backRouteList] is undefined exactly when the
    request was rejected or the delivered list has a nonzero [pid] that is
    the [id] of no record; in every other case it holds a forest. *)
Theorem fetch_backRouteList_undefined_iff
        (res : result (list BackendMenuRecord)) :
  fetch_backRouteList JSON_parse ROUTE_MAP res = None <->
  match res with
  | Raise _ => True
  | Ok menuList => consistent_parents menuList = false
  end.
Proof.
  unfold fetch_backRouteList. destruct res as [menuList|e]; simpl; [|tauto].
  rewrite handleBackMenuTree_closed, orphan_free_iff_consistent.
  destruct (consistent_parents menuList); simpl.
  - split; discriminate.
  - tauto.
Qed.

Lemma lookup_set_field_same (k : string) (v : jsval) (fs : list (string * jsval)) :
  lookup_field k (set_field k v fs) = v.
Proof.
  induction fs as [|[k0 v0] fs IH]; simpl.
  - now rewrite String.eqb_refl.
  - destruct (String.eqb k k0) eqn:E; simpl.
    + apply String.eqb_eq in E. subst. now rewrite String.eqb_refl.
    + now rewrite E.
Qed.

Lemma wrapper_route_facts (r : route) :
  uncomponent_route (wrapperRouterComponent_route ROUTE_MAP r) = uncomponent_route r /\
  components_route (wrapperRouterComponent_route ROUTE_MAP r) =
    map (fun nc => (fst nc, ROUTE_MAP (fst nc))) (components_route r) /\
  wrapperRouterComponent_route ROUTE_MAP (wrapperRouterComponent_route ROUTE_MAP r) =
    wrapperRouterComponent_route ROUTE_MAP r.
Proof.
  induction r as [i p n pa rd me co | i p n pa rd me co cs IH]
    using route_nested_ind; [simpl; auto|].
  destruct cs as [|c cs]; [simpl; auto|].
  cbn [wrapperRouterComponent_route uncomponent_route components_route option_map].
  assert (H : map uncomponent_route (map (wrapperRouterComponent_route ROUTE_MAP) (c :: cs))
              = map uncomponent_route (c :: cs) /\
              flat_map components_route
                       (map (wrapperRouterComponent_route ROUTE_MAP) (c :: cs))
              = map (fun nc => (fst nc, ROUTE_MAP (fst nc)))
                    (flat_map components_route (c :: cs)) /\
              map (wrapperRouterComponent_route ROUTE_MAP)
                  (map (wrapperRouterComponent_route ROUTE_MAP) (c :: cs))
              = map (wrapperRouterComponent_route ROUTE_MAP) (c :: cs)).
  { induction IH as [|x l (H1 & H2 & H3) _ (I1 & I2 & I3)]; [simpl; auto|].
    cbn [map flat_map]. rewrite H1, H2, H3, I1, I2, I3, map_app. auto. }
  destruct H as (H1 & H2 & H3). rewrite H1, H2.
  repeat split; auto.
  remember (map (wrapperRouterComponent_route ROUTE_MAP) (c :: cs)) as l eqn:El.
  destruct l as [|y l]; [discriminate|]. now rewrite H3.
Qed.

Lemma wrapper_forest_facts (routes : list route) :
  uncomponent (wrapperRouterComponent ROUTE_MAP routes) = uncomponent routes /\
  components (wrapperRouterComponent ROUTE_MAP routes) =
    map (fun nc => (fst nc, ROUTE_MAP (fst nc))) (components routes).
Proof.
  unfold uncomponent, components, wrapperRouterComponent.
  induction routes as [|r l (I1 & I2)]; [simpl; auto|].
  destruct (wrapper_route_facts r) as (H1 & H2 & _).
  cbn [map flat_map]. rewrite H1, H2, I1, I2, map_app. auto.
Qed.

(** X6. [wrapperRouterComponent] gives every node of the forest, at every
    depth, the component that [ROUTE_MAP] holds for the node's name
    ([undefined] for a name without an entry), whatever component the node
    had; it leaves everything else as it is, and a second run changes
    nothing. *)
Theorem wrapperRouterComponent_sets_every_component (routes : list route) :
  uncomponent (wrapperRouterComponent ROUTE_MAP routes) = uncomponent routes /\
  components (wrapperRouterComponent ROUTE_MAP routes) =
    map (fun nc => (fst nc, ROUTE_MAP (fst nc))) (components routes) /\
  wrapperRouterComponent ROUTE_MAP (wrapperRouterComponent ROUTE_MAP routes) =
    wrapperRouterComponent ROUTE_MAP routes.
Proof.
  destruct (wrapper_forest_facts routes) as (H1 & H2).
  split; [exact H1|]. split; [exact H2|].
  unfold wrapperRouterComponent.
  induction routes as [|r l IH]; [reflexivity|].
  destruct (wrapper_route_facts r) as (_ & _ & H3).
  cbn [map]. rewrite H3. f_equal. apply IH; apply wrapper_forest_facts.
Qed.

Lemma parse_wrap_commute_route (r : route) :
  parseRouteRoles_route JSON_parse (wrapperRouterComponent_route ROUTE_MAP r) =
  wrapperRouterComponent_route ROUTE_MAP (parseRouteRoles_route JSON_parse r).
Proof.
  induction r as [i p n pa rd me co | i p n pa rd me co cs IH]
    using route_nested_ind; [reflexivity|].
  destruct cs as [|c cs]; [reflexivity|].
  cbn [wrapperRouterComponent_route parseRouteRoles_route map].
  inversion IH as [|x l Hc Hcs]; subst. rewrite Hc. do 3 f_equal.
  clear - Hcs. induction Hcs as [|x l Hx _ IHl]; simpl; auto.
  now rewrite Hx, IHl.
Qed.

(** X7. [wrapperRouterComponent] and [parseRouteRoles] commute: the forest
    is the same whichever of the two runs first. *)
Theorem parseRouteRoles_wrapperRouterComponent_commute (routes : list route) :
  parseRouteRoles JSON_parse (wrapperRouterComponent ROUTE_MAP routes) =
  wrapperRouterComponent ROUTE_MAP (parseRouteRoles JSON_parse routes).
Proof.
  unfold parseRouteRoles, wrapperRouterComponent.
  induction routes as [|r l IH]; simpl; auto.
  now rewrite parse_wrap_commute_route, IH.
Qed.

Lemma decode_roles_other_key (me : jsval) (k : string) :
  String.eqb k "roles" = false ->
  get k (decode_roles JSON_parse me) = get k me.
Proof.
  intros Hk. unfold decode_roles, JSON_parse_val.
  destruct (truthy (get "roles" me)) eqn:Ht; auto.
  destruct (JSON_parse (ToString (get "roles" me))); simpl; auto.
  destruct me; simpl in *; try discriminate.
  now apply lookup_set_field_other.
Qed.

Lemma decode_roles_value (me v : jsval) :
  truthy (get "roles" me) = true ->
  JSON_parse (ToString (get "roles" me)) = Some v ->
  get "roles" (decode_roles JSON_parse me) = v.
Proof.
  intros Ht Hv. unfold decode_roles, JSON_parse_val. rewrite Ht, Hv. simpl.
  apply lookup_set_field_same.
Qed.

Lemma parseRouteRoles_route_facts (r : route) :
  shape_route (parseRouteRoles_route JSON_parse r) = shape_route r /\
  metas_route (parseRouteRoles_route JSON_parse r) =
    map (decode_roles JSON_parse) (metas_route r).
Proof.
  induction r as [i p n pa rd me co | i p n pa rd me co cs IH]
    using route_nested_ind; [simpl; auto|].
  destruct cs as [|c cs]; [simpl; auto|].
  cbn [parseRouteRoles_route shape_route metas_route option_map].
  assert (H : map shape_route (map (parseRouteRoles_route JSON_parse) (c :: cs))
              = map shape_route (c :: cs) /\
              flat_map metas_route (map (parseRouteRoles_route JSON_parse) (c :: cs))
              = map (decode_roles JSON_parse) (flat_map metas_route (c :: cs))).
  { induction IH as [|x l (H1 & H2) _ (I1 & I2)]; [simpl; auto|].
    cbn [map flat_map]. rewrite H1, H2, I1, I2, map_app. auto. }
  destruct H as (H1 & H2). rewrite H1, H2. auto.
Qed.

Lemma parse_forest_facts (routes : list route) :
  shape (parseRouteRoles JSON_parse routes) = shape routes /\
  metas (parseRouteRoles JSON_parse routes) =
    map (decode_roles JSON_parse) (metas routes).
Proof.
  unfold shape, metas, parseRouteRoles.
  induction routes as [|r l (I1 & I2)]; [simpl; auto|].
  destruct (parseRouteRoles_route_facts r) as (H1 & H2).
  cbn [map flat_map]. rewrite H1, H2, I1, I2, map_app. auto.
Qed.

(** X8. [parseRouteRoles] touches nothing but [meta.roles]: the forest keeps
    its shape, and every meta keeps every other key; a [roles] that is
    absent or falsy leaves the meta as it is, and a [roles] that decodes is
    replaced by the decoded value. *)
Theorem parseRouteRoles_touches_roles_only (routes : list route) :
  shape (parseRouteRoles JSON_parse routes) = shape routes /\
  metas (parseRouteRoles JSON_parse routes) =
    map (decode_roles JSON_parse) (metas routes) /\
  (forall me k, String.eqb k "roles" = false ->
                get k (decode_roles JSON_parse me) = get k me) /\
  (forall me, truthy (get "roles" me) = false ->
              decode_roles JSON_parse me = me) /\
  (forall me v, truthy (get "roles" me) = true ->
                JSON_parse (ToString (get "roles" me)) = Some v ->
                get "roles" (decode_roles JSON_parse me) = v).
Proof.
  destruct (parse_forest_facts routes) as (H1 & H2).
  split; [exact H1|]. split; [exact H2|]. split; [|split].
  - apply decode_roles_other_key.
  - intros me Hf. unfold decode_roles. now rewrite Hf.
  - apply decode_roles_value.
Qed.

End Fetch_more.

(** ** [routeFilter] outside the declared type of [roles] *)

Section Role_filter_more.

Variable roleList : list string.

Lemma array_some_includes_array (l : list jsval) :
  array_some (fun role => includes (JArr l) role) roleList =
  Ok (existsb (has_role l) roleList).
Proof.
  induction roleList as [|role rl IH]; simpl; auto.
  fold (has_role l role). destruct (has_role l role); simpl; auto.
Qed.

Lemma array_some_includes_string (s : string) :
  array_some (fun role => includes (JStr s) role) roleList =
  Ok (existsb (string_includes s) roleList).
Proof.
  induction roleList as [|role rl IH]; simpl; auto.
  destruct (string_includes s role); simpl; auto.
Qed.

(** X9. [routeFilter] raises exactly when the role list is not empty and
    [meta.roles] is truthy and neither an array nor a string, and then it
    raises a [TypeError].  Otherwise it answers: [true] for a falsy
    [roles], [false] for a truthy [roles] under an empty role list. *)
Theorem routeFilter_raises_iff (r : route) :
  let roles := get "roles" (or_empty (r_meta r)) in
  match routeFilter roleList r with
  | Raise e =>
      e = TypeError /\ truthy roles = true /\ roles_callable roles = false /\
      roleList <> []
  | Ok b =>
      (truthy roles = false \/ roles_callable roles = true \/ roleList = []) /\
      (truthy roles = false -> b = true) /\
      (truthy roles = true -> roleList = [] -> b = false)
  end.
Proof.
  intros roles. unfold routeFilter. fold roles.
  destruct (truthy roles) eqn:Ht; simpl.
  2:{ split; [now left|]. split; [reflexivity|discriminate]. }
  destruct roles as [| |b|z|s|l|fs] eqn:Er; try discriminate.
  - destruct roleList; simpl.
    + split; [now right; right|]. split; [discriminate|reflexivity].
    + repeat split; auto. discriminate.
  - destruct roleList; simpl.
    + split; [now right; right|]. split; [discriminate|reflexivity].
    + repeat split; auto. discriminate.
  - rewrite array_some_includes_string.
    split; [now right; left|]. split; [discriminate|]. now intros _ ->.
  - rewrite array_some_includes_array.
    split; [now right; left|]. split; [discriminate|]. now intros _ ->.
  - destruct roleList; simpl.
    + split; [now right; right|]. split; [discriminate|reflexivity].
    + repeat split; auto. discriminate.
Qed.

(** X10. When [meta.roles] is a non-empty string (a text that
    [parseRouteRoles] could not decode), [routeFilter] does not raise: it
    passes the node exactly when some role of the list occurs in the text
    as a substring. *)
Theorem routeFilter_on_text_roles (r : route) (s : string) :
  get "roles" (or_empty (r_meta r)) = JStr s ->
  s <> "" ->
  routeFilter roleList r = Ok (existsb (string_includes s) roleList).
Proof.
  intros Hr Hs. unfold routeFilter. rewrite Hr.
  assert (Ht : truthy (JStr s) = true).
  { simpl. destruct (String.eqb_spec s ""); [contradiction|reflexivity]. }
  rewrite Ht. simpl. apply array_some_includes_string.
Qed.

End Role_filter_more.

Lemma routeFilter_on_text_roles_witness :
  routeFilter ["admin"] text_roles_route = Ok true.
Proof.
  apply (routeFilter_on_text_roles ["admin"] text_roles_route
           (s := "administrator,auditor")).
  - reflexivity.
  - discriminate.
Defined.

(** ** [patchHomeAffix]: no match, first match, redirects, reruns *)

Lemma app_inv_length (A : Type) (a a' b b' : list A) :
  List.length a = List.length a' -> a ++ b = a' ++ b' -> a = a' /\ b = b'.
Proof.
  revert a'; induction a as [|x a IH]; intros [|x' a']; simpl; try discriminate; auto.
  intros [= Hl] [= -> E]. destruct (IH a' Hl E) as [-> ->]. auto.
Qed.

Lemma shape_metas_determine_route (r : route) :
  forall r' X Y,
    shape_route r = shape_route r' ->
    metas_route r ++ X = metas_route r' ++ Y ->
    r = r' /\ X = Y.
Proof.
  induction r as [i p n pa rd me co | i p n pa rd me co cs IH]
    using route_nested_ind;
    intros [i' p' n' pa' rd' me' co' [cs'|]] X Y Hs Hm;
    simpl in Hs, Hm; try discriminate.
  - injection Hs as -> -> -> -> -> ->. injection Hm as -> ->. auto.
  - injection Hs as -> -> -> -> -> -> Hcs. injection Hm as -> Hm.
    assert (Q : cs = cs' /\ X = Y).
    { clear - IH Hcs Hm. revert cs' X Y Hcs Hm.
      induction IH as [|c cs Hc _ IHcs]; intros [|c' cs'] X Y Hcs Hm;
        simpl in *; try discriminate; auto.
      injection Hcs as Hc1 Hcs. rewrite <- !app_assoc in Hm.
      destruct (Hc c' _ _ Hc1 Hm) as [-> Hrest].
      destruct (IHcs cs' X Y Hcs Hrest) as [-> ->]. auto. }
    destruct Q as [-> ->]. auto.
Qed.

(** A forest is determined by its shape and its metas. *)
Lemma shape_metas_determine (l l' : list route) :
  shape l = shape l' -> metas l = metas l' -> l = l'.
Proof.
  unfold shape, metas. revert l'; induction l as [|r l IH]; intros [|r' l'];
    simpl; try discriminate; auto.
  intros [= Hr Hl] Hm.
  destruct (shape_metas_determine_route r r' _ _ Hr Hm) as [-> Hrest].
  now rewrite (IH l' Hl Hrest).
Qed.

Lemma first_match_walk_marks (l : list (string * route)) (home : string) :
  fst (fst (first_match_walk l home)) =
  mark_first (walk_keys l) (map (fun x => r_meta (snd x)) l) home.
Proof.
  revert home; induction l as [|[cp r] l IH]; intros home; simpl; auto.
  destruct (String.eqb cp home).
  - destruct (declared (r_redirect r)) as [target|]; simpl; auto.
    rewrite <- IH. now destruct (first_match_walk l target) as [[ms h] t].
  - rewrite <- IH. now destruct (first_match_walk l home) as [[ms h] t].
Qed.

Lemma walk_keys_shape_route (prefix : string) (r : route) :
  walk_keys (walk_route prefix (shape_route r)) = walk_keys (walk_route prefix r).
Proof.
  revert prefix. induction r as [i p n pa rd me co | i p n pa rd me co cs IH]
    using route_nested_ind; intros prefix; simpl; auto.
  f_equal. generalize (with_slash (resolve_path prefix pa)) as q.
  induction IH as [|c cs Hc _ IHcs]; intros q; simpl; auto.
  unfold walk_keys in *. now rewrite !map_app, Hc, IHcs.
Qed.

Lemma walk_keys_shape (prefix : string) (l l' : list route) :
  shape l = shape l' ->
  walk_keys (walk prefix l) = walk_keys (walk prefix l').
Proof.
  assert (E : forall l, walk_keys (walk prefix (shape l)) = walk_keys (walk prefix l)).
  { clear. induction l as [|r l IH]; simpl; auto.
    unfold walk_keys, walk in *. simpl.
    rewrite !map_app, IH. f_equal. apply walk_keys_shape_route. }
  intros H. now rewrite <- (E l), <- (E l'), H.
Qed.

Lemma set_field_twice (k : string) (v : jsval) (fs : list (string * jsval)) :
  set_field k v (set_field k v fs) = set_field k v fs.
Proof.
  induction fs as [|[k0 v0] fs IH]; simpl.
  - now rewrite String.eqb_refl.
  - destruct (String.eqb k k0) eqn:E; simpl; rewrite E; auto.
    now rewrite IH.
Qed.

Lemma assign_affix_twice (m : jsval) :
  assign_affix (assign_affix m) = assign_affix m.
Proof.
  unfold assign_affix. simpl. now rewrite set_field_twice.
Qed.

Lemma mark_first_twice (keys : list (string * option string)) (ms : list jsval)
      (home : string) :
  mark_first keys (mark_first keys ms home) home = mark_first keys ms home.
Proof.
  revert ms home; induction keys as [|[cp rd] keys IH]; intros [|m ms] home;
    simpl; auto.
  destruct (String.eqb cp home) eqn:E.
  - destruct rd as [target|]; simpl; try rewrite E.
    + now rewrite IH.
    + now rewrite assign_affix_twice.
  - simpl. try rewrite E. now rewrite IH.
Qed.

Lemma mark_first_no_hit (keys : list (string * option string)) (ms : list jsval)
      (home : string) :
  Forall (fun k => String.eqb (fst k) home = false) keys ->
  mark_first keys ms home = ms.
Proof.
  intros H; revert ms; induction H as [|[cp rd] keys Hk _ IH]; intros [|m ms];
    simpl in *; auto.
  now rewrite Hk, IH.
Qed.

Lemma mark_first_app (k1 k2 : list (string * option string))
      (m1 m2 : list jsval) (home : string) :
  List.length k1 = List.length m1 ->
  Forall (fun k => String.eqb (fst k) home = false) k1 ->
  mark_first (k1 ++ k2) (m1 ++ m2) home = m1 ++ mark_first k2 m2 home.
Proof.
  intros Hl H; revert m1 Hl; induction H as [|[cp rd] keys Hk _ IH];
    intros [|m ms] Hl; simpl in *; try discriminate; auto.
  rewrite Hk, IH; auto.
Qed.

Section Home_more.

Variable userHomePath : option string.
Variable BASE_HOME : string.

Local Abbreviation home := (initial_homePath userHomePath BASE_HOME).
Local Abbreviation patch := (patchHomeAffix userHomePath BASE_HOME).

Lemma metas_patch (routes : list route) :
  metas (patch routes) = mark_first (walk_keys (walk "" routes)) (metas routes) home.
Proof.
  destruct (patchHomeAffix_as_walk userHomePath BASE_HOME routes) as [_ H].
  now rewrite H, first_match_walk_marks, metas_of_walk_forest.
Qed.

(** X11. When no node of the forest has the home path as its resolved
    path, [patchHomeAffix] returns the forest as it was: no match is not an
    error and marks nothing. *)
Theorem patchHomeAffix_without_match (routes : list route) :
  Forall (fun x => fst x <> home) (walk "" routes) ->
  patch routes = routes.
Proof.
  intros H.
  destruct (patchHomeAffix_as_walk userHomePath BASE_HOME routes) as [Hs _].
  apply shape_metas_determine; auto.
  rewrite metas_patch. apply mark_first_no_hit.
  unfold walk_keys. apply Forall_map.
  eapply Forall_impl; [|exact H]. intros [cp r] Hne. simpl in *.
  now apply String.eqb_neq.
Qed.

(** X12. The first node in walk order whose resolved path is the home path,
    when it declares no redirect, is the one node that is marked: every
    meta before it and after it stays, whatever other nodes match later. *)
Theorem patchHomeAffix_marks_first_match
        (routes : list route) (pre post : list (string * route)) (r : route) :
  walk "" routes = pre ++ (home, r) :: post ->
  Forall (fun x => fst x <> home) pre ->
  declared (r_redirect r) = None ->
  shape (patch routes) = shape routes /\
  metas (patch routes) =
    map (fun x => r_meta (snd x)) pre ++
    assign_affix (r_meta r) :: map (fun x => r_meta (snd x)) post.
Proof.
  intros Hw Hpre Hrd.
  destruct (patchHomeAffix_as_walk userHomePath BASE_HOME routes) as [Hs _].
  split; auto.
  rewrite metas_patch, <- (metas_of_walk_forest "" routes), Hw.
  unfold walk_keys. rewrite !map_app. cbn [map fst snd].
  rewrite mark_first_app.
  - cbn [mark_first]. now rewrite String.eqb_refl, Hrd.
  - now rewrite !length_map.
  - apply Forall_map. eapply Forall_impl; [|exact Hpre].
    intros [cp x] Hne. simpl in *. now apply String.eqb_neq.
Qed.

(** X13. A redirect is followed forward only: when the node at the home
    path redirects to a target and no node after it in walk order has the
    target as its resolved path, nothing is marked and the forest is
    returned as it was, even when a node before it has that path. *)
Theorem patchHomeAffix_redirect_looks_forward
        (routes : list route) (pre post : list (string * route))
        (r : route) (target : string) :
  walk "" routes = pre ++ (home, r) :: post ->
  Forall (fun x => fst x <> home) pre ->
  declared (r_redirect r) = Some target ->
  Forall (fun x => fst x <> target) post ->
  patch routes = routes.
Proof.
  intros Hw Hpre Hrd Hpost.
  destruct (patchHomeAffix_as_walk userHomePath BASE_HOME routes) as [Hs _].
  apply shape_metas_determine; auto.
  rewrite metas_patch, <- (metas_of_walk_forest "" routes), Hw.
  unfold walk_keys. rewrite !map_app. cbn [map fst snd].
  rewrite mark_first_app.
  - cbn [mark_first]. rewrite String.eqb_refl, Hrd.
    rewrite mark_first_no_hit; auto.
    apply Forall_map. eapply Forall_impl; [|exact Hpost].
    intros [cp x] Hne. simpl in *. now apply String.eqb_neq.
  - now rewrite !length_map.
  - apply Forall_map. eapply Forall_impl; [|exact Hpre].
    intros [cp x] Hne. simpl in *. now apply String.eqb_neq.
Qed.

(** X14. Running [patchHomeAffix] again on its own result changes nothing. *)
Theorem patchHomeAffix_idempotent (routes : list route) :
  patch (patch routes) = patch routes.
Proof.
  destruct (patchHomeAffix_as_walk userHomePath BASE_HOME routes) as [Hs _].
  destruct (patchHomeAffix_as_walk userHomePath BASE_HOME (patch routes))
    as [Hs' _].
  apply shape_metas_determine; auto.
  rewrite (metas_patch (patch routes)), (walk_keys_shape "" _ _ Hs), metas_patch.
  apply mark_first_twice.
Qed.

End Home_more.

(** X15. The mark of [patchHomeAffix], [Object.assign({}, meta, { affix:
    true })], sets [affix] to [true] and keeps every other key of an object
    meta with its value; an absent meta becomes the object that holds
    [affix] only. *)
Theorem assign_affix_keeps_other_keys (fs : list (string * jsval)) (k : string) :
  get "affix" (assign_affix (JObj fs)) = JBool true /\
  (String.eqb k "affix" = false ->
   get k (assign_affix (JObj fs)) = get k (JObj fs)) /\
  assign_affix JUndef = JObj [("affix", JBool true)].
Proof.
  unfold assign_affix. simpl. split; [|split]; auto.
  - apply lookup_set_field_same.
  - intros Hk. now apply lookup_set_field_other.
Qed.

Lemma patchHomeAffix_without_match_witness :
  patchHomeAffix None "/nowhere" nested_home = nested_home.
Proof.
  apply (@patchHomeAffix_without_match None "/nowhere" nested_home).
  repeat constructor; discriminate.
Defined.

Lemma patchHomeAffix_marks_first_match_witness :
  metas (patchHomeAffix (Some "/dashboard/analysis") "/nowhere" nested_home) =
  [JUndef; JObj [("title", JStr "Analysis"); ("affix", JBool true)]; JUndef].
Proof.
  apply (@patchHomeAffix_marks_first_match (Some "/dashboard/analysis") "/nowhere"
           nested_home
           [("/dashboard", hd dash_root nested_home)]
           [("/dashboard/workbench",
             mkRoute 3 1 "Workbench" "workbench" None JUndef None None)]
           (mkRoute 2 1 "Analysis" "analysis" None
                    (JObj [("title", JStr "Analysis")]) None None)).
  - reflexivity.
  - repeat constructor; discriminate.
  - reflexivity.
Defined.

Lemma patchHomeAffix_redirect_looks_forward_witness :
  patchHomeAffix (Some "/home") "/nowhere" backward_redirect = backward_redirect.
Proof.
  apply (@patchHomeAffix_redirect_looks_forward (Some "/home") "/nowhere"
           backward_redirect
           [("/target", mkRoute 1 0 "Target" "/target" None JUndef None None)]
           []
           (mkRoute 2 0 "Home" "/home" (Some "/target") JUndef None None)
           "/target").
  - reflexivity.
  - repeat constructor; discriminate.
  - reflexivity.
  - constructor.
Defined.

(** ** The store actions together *)

(** X16. [resetState] undoes [setPermCodeList], [setBackMenuList],
    [setLastBuildMenuTime] and [setDynamicAddedRoute], whatever they stored;
    it commutes with [setFrontMenuList], whose value it keeps; and a second
    reset changes nothing. *)
Theorem resetState_after_setters (s : PermissionState) (codes : list jsval)
        (menus : list Menu) (now : Z) (added : bool) :
  resetState (setPermCodeList codes s) = resetState s /\
  resetState (setBackMenuList now menus s) = resetState s /\
  resetState (setLastBuildMenuTime now s) = resetState s /\
  resetState (setDynamicAddedRoute added s) = resetState s /\
  resetState (setFrontMenuList menus s) = setFrontMenuList menus (resetState s) /\
  resetState (resetState s) = resetState s.
Proof.
  repeat split; try reflexivity.
  unfold setBackMenuList. now destruct (0 <? List.length menus)%nat.
Qed.

(** ** The pass and the store *)

Section Pass_more.

Variable JSON_parse : string -> option jsval.
Variable ROUTE_MAP : string -> option string.
Variable roleList : list string.
Variable userHomePath : option string.
Variable BASE_HOME : string.
Variable flatMultiLevelRoutes : list route -> list route.
Variable transformObjToRoute : list route -> list route.
Variable ERROR_LOG_ROUTE : route.
Variable PAGE_NOT_FOUND_ROUTE : route.
Variable getBackActiveMenuList : result (list BackendMenuRecord).
Variable now : Z.

Local Abbreviation run getPermCode getMenuList :=
  (buildRoutesAction JSON_parse ROUTE_MAP roleList userHomePath BASE_HOME
                     flatMultiLevelRoutes transformObjToRoute ERROR_LOG_ROUTE
                     PAGE_NOT_FOUND_ROUTE getBackActiveMenuList getPermCode
                     getMenuList now).

(** X17. In BACK mode a rejected [getPermCode()] ends the [try] block
    before the menu list is requested: the pass then runs on the empty
    list whatever [getMenuList()] would deliver, and the stored permission
    codes stay. *)
Theorem back_mode_skips_menu_after_failed_codes
        (e : js_error) (getMenuList others : result (list route))
        (s : PermissionState) :
  run (Raise e) getMenuList BACK s = run (Raise e) others BACK s /\
  run (Raise e) getMenuList BACK s = run (Raise e) (Ok []) BACK s /\
  permCodeList (fst (run (Raise e) getMenuList BACK s)) = permCodeList s.
Proof.
  repeat split.
  unfold buildRoutesAction, buildRoutes_from, mode_branch. cbv beta iota zeta.
  unfold setBackMenuList.
  destruct (0 <? _)%nat;
    destruct (_ <- filter _ _ ;; _); reflexivity.
Qed.

(** X18. What the pass writes to the store.  In ROLE mode nothing, whether
    it returns or raises.  In ROUTE_MAPPING mode nothing but the front menu,
    and nothing at all when it raises.  In BACK mode never the front menu;
    the permission codes are those of a resolved [getPermCode()] and stay
    otherwise; the build time becomes the current time when the stored back
    menu is not empty and stays otherwise.  No mode touches the
    dynamic-route flag. *)
Theorem pass_writes_to_store
        (getPermCode : result (list jsval)) (getMenuList : result (list route))
        (s : PermissionState) :
  fst (run getPermCode getMenuList ROLE s) = s /\
  (let s' := fst (run getPermCode getMenuList ROUTE_MAPPING s) in
   setFrontMenuList (frontMenuList s) s' = s /\
   (forall e, snd (run getPermCode getMenuList ROUTE_MAPPING s) = Raise e ->
              s' = s)) /\
  (let s' := fst (run getPermCode getMenuList BACK s) in
   frontMenuList s' = frontMenuList s /\
   isDynamicAddedRoute s' = isDynamicAddedRoute s /\
   permCodeList s' =
     permCodeList (try_catch (changePermissionCode getPermCode s) s) /\
   lastBuildMenuTime s' =
     (if (0 <? List.length (backMenuList s'))%nat
      then now else lastBuildMenuTime s)).
Proof.
  split; [reflexivity|]. split.
  - unfold buildRoutesAction, buildRoutes_from, mode_branch.
    destruct (_ <- filter (fetch_backRouteList _ _ _) _ ;; _) as [routes|e];
      [|split; [now destruct s|reflexivity]].
    destruct (_ <- filter (Some routes) _ ;; _) as [routes'|e'];
      (split; [now destruct s|]); simpl; auto; discriminate.
  - unfold buildRoutesAction, buildRoutes_from, mode_branch, changePermissionCode.
    cbv beta iota zeta.
    destruct getPermCode as [codes|e]; simpl; unfold setBackMenuList.
    + destruct (0 <? _)%nat eqn:E; simpl; rewrite ?E; auto.
    + destruct (0 <? _)%nat eqn:E; simpl; rewrite ?E; auto.
Qed.

Lemma shape_app (l1 l2 : list route) : shape (l1 ++ l2) = shape l1 ++ shape l2.
Proof.
  unfold shape. apply map_app.
Qed.

(** X19. Whenever the pass returns, in any mode, the forest is not empty and
    its last node is the error-log route; in BACK mode its first node is
    the not-found route (both up to the [affix] mark). *)
Theorem pass_appends_reserved_routes
        (getPermCode : result (list jsval)) (getMenuList : result (list route))
        (mode : PermissionModeEnum) (s : PermissionState) (routes : list route) :
  snd (run getPermCode getMenuList mode s) = Ok routes ->
  (exists front, shape routes = front ++ [shape_route ERROR_LOG_ROUTE]) /\
  (mode = BACK ->
   exists rest, shape routes = shape_route PAGE_NOT_FOUND_ROUTE :: rest).
Proof.
  unfold buildRoutesAction, buildRoutes_from.
  destruct (mode_branch _ _ _ _ _ _ _ mode _ s) as [s' [r|e]] eqn:Eb; simpl;
    [|discriminate].
  intros [= <-].
  destruct (patchHomeAffix_as_walk userHomePath BASE_HOME (r ++ [ERROR_LOG_ROUTE]))
    as [Hs _].
  rewrite Hs, shape_app. split; [eexists; reflexivity|].
  intros ->. unfold mode_branch in Eb. cbv beta iota zeta in Eb.
  destruct (match getPermCode with Ok _ => _ | Raise _ => _ end) as [s1 rl].
  injection Eb as _ Eb.
  destruct (filter_forest _ _) as [x|]; simpl in Eb; [|discriminate].
  destruct (array_filter _ x) as [y|]; simpl in Eb; [|discriminate].
  injection Eb as <-. simpl. eexists; reflexivity.
Qed.

End Pass_more.

Lemma pass_appends_reserved_routes_witness :
  exists front,
    shape (match snd (buildRoutesAction_sample ["user"] (Ok admin_records) ROLE
                                               initial_state) with
           | Ok routes => routes
           | Raise _ => []
           end)
    = front ++ [shape_route ERROR_LOG_ROUTE_sample].
Proof.
  apply (@pass_appends_reserved_routes JSON_parse_sample ROUTE_MAP_sample
           ["user"] None "/dashboard/analysis" flatMultiLevelRoutes_sample
           transformObjToRoute_sample ERROR_LOG_ROUTE_sample
           PAGE_NOT_FOUND_ROUTE_sample (Ok admin_records) 1700000000000
           (Ok []) (Ok []) ROLE initial_state _ eq_refl).
Defined.

(** ** The forest handed to the filters *)

Lemma ids_of_shape (r : route) : ids_route (shape_route r) = ids_route r.
Proof.
  induction r as [i p n pa rd me co | i p n pa rd me co cs IH]
    using route_nested_ind; simpl; auto.
  f_equal. induction IH as [|c cs Hc _ IHcs]; simpl; auto.
  now rewrite Hc, IHcs.
Qed.

Lemma components_of_shape (r : route) :
  components_route (shape_route r) = components_route r.
Proof.
  induction r as [i p n pa rd me co | i p n pa rd me co cs IH]
    using route_nested_ind; simpl; auto.
  f_equal. induction IH as [|c cs Hc _ IHcs]; simpl; auto.
  now rewrite Hc, IHcs.
Qed.

Lemma ids_of_uncomponent (r : route) :
  ids_route (uncomponent_route r) = ids_route r.
Proof.
  induction r as [i p n pa rd me co | i p n pa rd me co cs IH]
    using route_nested_ind; simpl; auto.
  f_equal. induction IH as [|c cs Hc _ IHcs]; simpl; auto.
  now rewrite Hc, IHcs.
Qed.

Lemma metas_of_uncomponent (r : route) :
  metas_route (uncomponent_route r) = metas_route r.
Proof.
  induction r as [i p n pa rd me co | i p n pa rd me co cs IH]
    using route_nested_ind; simpl; auto.
  f_equal. induction IH as [|c cs Hc _ IHcs]; simpl; auto.
  now rewrite Hc, IHcs.
Qed.

Lemma flat_map_through (A : Type) (f g : route -> list A) (h : route -> route)
      (l l' : list route) :
  (forall r, f (h r) = g r) -> map h l = map h l' ->
  flat_map g l = flat_map g l'.
Proof.
  intros E. revert l'; induction l as [|r l IH]; intros [|r' l']; simpl;
    try discriminate; auto.
  intros [= Hr Hl]. rewrite <- (E r), <- (E r'), Hr. f_equal. now apply IH.
Qed.

Section Fetched_forest.

Variable JSON_parse : string -> option jsval.
Variable ROUTE_MAP : string -> option string.
Variable menuList : list BackendMenuRecord.

Lemma fetched_forest_facts (l : list route) :
  let F := parseRouteRoles JSON_parse (wrapperRouterComponent ROUTE_MAP l) in
  ids F = ids l /\
  metas F = map (decode_roles JSON_parse) (metas l) /\
  components F = map (fun nc => (fst nc, ROUTE_MAP (fst nc))) (components l).
Proof.
  intros F. subst F.
  destruct (parse_forest_facts JSON_parse
              (wrapperRouterComponent ROUTE_MAP l)) as (Hs & Hm).
  destruct (wrapper_forest_facts ROUTE_MAP l) as (Hu & Hc).
  split; [|split].
  - unfold ids.
    rewrite (@flat_map_through _ ids_route ids_route shape_route _ _
                               ids_of_shape Hs).
    apply (@flat_map_through _ ids_route ids_route uncomponent_route _ _
                             ids_of_uncomponent Hu).
  - rewrite Hm. f_equal. unfold metas.
    apply (@flat_map_through _ metas_route metas_route uncomponent_route _ _
                             metas_of_uncomponent Hu).
  - rewrite <- Hc. unfold components.
    apply (@flat_map_through _ components_route components_route shape_route
                             _ _ components_of_shape Hs).
Qed.

(** X20. When the [try] block leaves a forest in [backRouteList], it is the
    forest [handleBackMenuTree] returned, node for node: the ids in the same
    depth-first order, every meta as the builder left it except for the
    decoding of [roles], and on every node the component that [ROUTE_MAP]
    holds for its name. *)
Theorem fetch_backRouteList_forest (F : list route) :
  fetch_backRouteList JSON_parse ROUTE_MAP (Ok menuList) = Some F ->
  exists st,
    handleBackMenuTree JSON_parse menuList = Ok st /\
    ids F = ids (read_forest st) /\
    metas F = map (decode_roles JSON_parse) (metas (read_forest st)) /\
    Forall (fun nc => snd nc = ROUTE_MAP (fst nc)) (components F).
Proof.
  unfold fetch_backRouteList. simpl.
  destruct (handleBackMenuTree JSON_parse menuList) as [st|e]; simpl;
    [|discriminate].
  intros [= <-]. exists st. split; auto.
  destruct (fetched_forest_facts (read_forest st)) as (H1 & H2 & H3).
  repeat split; auto.
  rewrite H3. apply Forall_map. apply Forall_forall. auto.
Qed.

(** X21. When following parent ids from every record ends at a record with
    [pid = 0], the [try] block leaves a forest in [backRouteList] that holds
    the id of every delivered record exactly once. *)
Theorem fetch_backRouteList_holds_every_record :
  (forall j, (j < List.length menuList)%nat ->
             climbs menuList (List.length menuList) j = true) ->
  exists F,
    fetch_backRouteList JSON_parse ROUTE_MAP (Ok menuList) = Some F /\
    Permutation (ids F) (map rec_id menuList).
Proof.
  intros Hcl. unfold fetch_backRouteList. simpl.
  rewrite handleBackMenuTree_closed, (no_orphan_of_climbs menuList Hcl). simpl.
  eexists. split; [reflexivity|].
  destruct (fetched_forest_facts
              (read_forest (heap_at JSON_parse menuList (List.length menuList)
                                    (List.length menuList),
                            roots_upto menuList (List.length menuList))))
    as (H1 & _).
  rewrite H1. now apply ids_read_forest_permutation.
Qed.

End Fetched_forest.

Lemma fetch_backRouteList_forest_witness :
  Forall (fun nc => snd nc = ROUTE_MAP_sample (fst nc))
         (components
            (match fetch_backRouteList JSON_parse_sample ROUTE_MAP_sample
                                       (Ok admin_records) with
             | Some F => F
             | None => []
             end)).
Proof.
  destruct (@fetch_backRouteList_forest JSON_parse_sample ROUTE_MAP_sample
              admin_records _ eq_refl) as (st & _ & _ & _ & H).
  exact H.
Defined.

Lemma fetch_backRouteList_holds_every_record_witness :
  exists F,
    fetch_backRouteList JSON_parse_sample ROUTE_MAP_sample (Ok small_tree)
    = Some F /\
    Permutation (ids F) [3; 1; 4; 2].
Proof.
  apply (fetch_backRouteList_holds_every_record JSON_parse_sample
           ROUTE_MAP_sample small_tree).
  intros j Hj. simpl in Hj.
  destruct j as [|[|[|[|j]]]]; try reflexivity. lia.
Defined.
